(** * imgproxy-go: URL generation and signing

    A shallow embedding of [url.go]: the option registry [allOptions],
    [processOptionMap], [Generate], [getSignatureHash] and [SetOption],
    together with the parts of the Go standard library they call
    ([encoding/base64], [crypto/sha256], [crypto/hmac], [sort.Strings]).

    Go strings are byte sequences and are modelled by [string]; [[]byte] is
    [list byte]; [map[string]string] is [gmap string string], whose lookup
    of an absent key is turned into the zero value [""] by [get]; Go's
    [int] and [uint] values are integers of [Z]. *)

From Stdlib Require Import ZArith Lia List Ascii String DecimalString DecimalZ DecimalPos.
From Stdlib Require Strings.Byte.
From stdpp Require Import gmap strings list sorting.
From coqutil Require Z.bitblast.

Local Open Scope Z_scope.

(** ** Bytes and strings *)

Abbreviation byte := Byte.byte.

Definition byte_to_Z (b : byte) : Z := Z.of_N (Byte.to_N b).

Definition byte_of_Z (z : Z) : byte :=
  match Byte.of_N (Z.to_N (z mod 256)) with
  | Some b => b
  | None => Byte.x00
  end.

(** [[]byte(s)] and [string(bs)] *)
Definition bytes_of_string (s : string) : list byte := String.list_byte_of_string s.
Definition string_of_bytes (bs : list byte) : string := String.string_of_list_byte bs.

(** [len(s) == 0] on a Go string *)
Definition is_empty (s : string) : bool := (String.length s =? 0)%nat.

(** ** Results of Go functions returning [(T, error)] *)

Inductive error : Type :=
| WriteError                      (* an error of [hash.Hash.Write] *)
| WithStack (e : error).          (* [errors.WithStack] *)

Inductive result (A : Type) : Type :=
| Ok (a : A)                      (* [(a, nil)] *)
| Err (e : error)                 (* [(zero, e)] *)
| Panic.                          (* run-time panic: slice bounds out of range *)
Arguments Ok {A} a.
Arguments Err {A} e.
Arguments Panic {A}.

(** ** [encoding/base64] *)

Module base64.

Definition encodeStd : string :=
  "ABCDEFGHIJKLMNOPQRSTUVWXYZabcdefghijklmnopqrstuvwxyz0123456789+/".
Definition encodeURL : string :=
  "ABCDEFGHIJKLMNOPQRSTUVWXYZabcdefghijklmnopqrstuvwxyz0123456789-_".

(** An [Encoding]: its 64-character alphabet and its padding character,
    [None] being [NoPadding]. *)
Record Encoding : Type := NewEncoding {
  encode : string;
  padChar : option ascii
}.

Definition WithPadding (enc : Encoding) (p : option ascii) : Encoding :=
  {| encode := encode enc; padChar := p |}.

Definition StdEncoding : Encoding := NewEncoding encodeStd (Some "="%char).
Definition URLEncoding : Encoding := NewEncoding encodeURL (Some "="%char).
Definition RawStdEncoding : Encoding := WithPadding StdEncoding None.
Definition RawURLEncoding : Encoding := WithPadding URLEncoding None.

(** [enc.encode[i]] *)
Definition sym (enc : Encoding) (i : Z) : ascii :=
  match String.get (Z.to_nat i) (encode enc) with
  | Some c => c
  | None => "000"%char
  end.

Definition pad (enc : Encoding) (n : nat) : string :=
  match padChar enc with
  | Some p => string_of_list_ascii (repeat p n)
  | None => ""
  end.

(** [Encode]: whole 3-byte groups first, then the 1 or 2 remaining bytes. *)
Fixpoint EncodeToString (enc : Encoding) (src : list byte) : string :=
  match src with
  | [] => ""
  | [b0] =>
      let val := Z.shiftl (byte_to_Z b0) 16 in
      String (sym enc (Z.land (Z.shiftr val 18) 0x3F))
        (String (sym enc (Z.land (Z.shiftr val 12) 0x3F)) (pad enc 2))
  | [b0; b1] =>
      let val := Z.lor (Z.shiftl (byte_to_Z b0) 16) (Z.shiftl (byte_to_Z b1) 8) in
      String (sym enc (Z.land (Z.shiftr val 18) 0x3F))
        (String (sym enc (Z.land (Z.shiftr val 12) 0x3F))
           (String (sym enc (Z.land (Z.shiftr val 6) 0x3F)) (pad enc 1)))
  | b0 :: b1 :: b2 :: rest =>
      let val := Z.lor (Z.lor (Z.shiftl (byte_to_Z b0) 16)
                              (Z.shiftl (byte_to_Z b1) 8)) (byte_to_Z b2) in
      String (sym enc (Z.land (Z.shiftr val 18) 0x3F))
        (String (sym enc (Z.land (Z.shiftr val 12) 0x3F))
           (String (sym enc (Z.land (Z.shiftr val 6) 0x3F))
              (String (sym enc (Z.land val 0x3F))
                 (EncodeToString enc rest))))
  end.

(** [enc.decodeMap[c]]: the position of [c] in the alphabet. *)
Fixpoint index_of (c : ascii) (alphabet : string) (i : Z) : option Z :=
  match alphabet with
  | EmptyString => None
  | String a rest => if Ascii.eqb a c then Some i else index_of c rest (i + 1)
  end.

Definition decodeMap (enc : Encoding) (c : ascii) : option Z :=
  index_of c (encode enc) 0.

(** [DecodeString] for an encoding without padding: quanta of 4 characters
    give 3 bytes, a final quantum of 3 or 2 characters gives 2 or 1 bytes,
    a single trailing character or a character outside the alphabet is a
    [CorruptInputError] ([None]). *)
Fixpoint DecodeString (enc : Encoding) (s : string) : option (list byte) :=
  match s with
  | EmptyString => Some []
  | String c0 (String c1 EmptyString) =>
      d0 ← decodeMap enc c0; d1 ← decodeMap enc c1;
      let val := Z.lor (Z.shiftl d0 18) (Z.shiftl d1 12) in
      Some [byte_of_Z (Z.shiftr val 16)]
  | String c0 (String c1 (String c2 EmptyString)) =>
      d0 ← decodeMap enc c0; d1 ← decodeMap enc c1; d2 ← decodeMap enc c2;
      let val := Z.lor (Z.lor (Z.shiftl d0 18) (Z.shiftl d1 12)) (Z.shiftl d2 6) in
      Some [byte_of_Z (Z.shiftr val 16); byte_of_Z (Z.shiftr val 8)]
  | String c0 (String c1 (String c2 (String c3 rest))) =>
      d0 ← decodeMap enc c0; d1 ← decodeMap enc c1;
      d2 ← decodeMap enc c2; d3 ← decodeMap enc c3;
      let val := Z.lor (Z.lor (Z.lor (Z.shiftl d0 18) (Z.shiftl d1 12))
                              (Z.shiftl d2 6)) d3 in
      tl ← DecodeString enc rest;
      Some (byte_of_Z (Z.shiftr val 16) :: byte_of_Z (Z.shiftr val 8)
            :: byte_of_Z val :: tl)
  | String _ EmptyString => None
  end.


(** The alphabet has 64 distinct characters: [decodeMap] inverts [sym]. *)
Definition alphabet_ok (enc : Encoding) : bool :=
  forallb (fun i => match decodeMap enc (sym enc (Z.of_nat i)) with
                    | Some j => j =? Z.of_nat i
                    | None => false
                    end) (seq 0 64).

End base64.

(** ** [crypto/sha256] *)

Module sha256.

(** [uint32] arithmetic: results are reduced modulo [2^32]. *)
Definition u32 (x : Z) : Z := x mod 2 ^ 32.
Definition add32 (x y : Z) : Z := u32 (x + y).
Definition not32 (x : Z) : Z := Z.lxor x 0xFFFFFFFF.
(** [bits.RotateLeft32(x, -k)] *)
Definition rotr (x k : Z) : Z :=
  Z.lor (Z.shiftr x k) (u32 (Z.shiftl x (32 - k))).

Definition Size : nat := 32.
Definition BlockSize : nat := 64.
Definition chunk : nat := 64.

Definition init : list Z :=
  [0x6A09E667; 0xBB67AE85; 0x3C6EF372; 0xA54FF53A;
   0x510E527F; 0x9B05688C; 0x1F83D9AB; 0x5BE0CD19].

Definition _K : list Z :=
  [0x428A2F98; 0x71374491; 0xB5C0FBCF; 0xE9B5DBA5;
   0x3956C25B; 0x59F111F1; 0x923F82A4; 0xAB1C5ED5;
   0xD807AA98; 0x12835B01; 0x243185BE; 0x550C7DC3;
   0x72BE5D74; 0x80DEB1FE; 0x9BDC06A7; 0xC19BF174;
   0xE49B69C1; 0xEFBE4786; 0x0FC19DC6; 0x240CA1CC;
   0x2DE92C6F; 0x4A7484AA; 0x5CB0A9DC; 0x76F988DA;
   0x983E5152; 0xA831C66D; 0xB00327C8; 0xBF597FC7;
   0xC6E00BF3; 0xD5A79147; 0x06CA6351; 0x14292967;
   0x27B70A85; 0x2E1B2138; 0x4D2C6DFC; 0x53380D13;
   0x650A7354; 0x766A0ABB; 0x81C2C92E; 0x92722C85;
   0xA2BFE8A1; 0xA81A664B; 0xC24B8B70; 0xC76C51A3;
   0xD192E819; 0xD6990624; 0xF40E3585; 0x106AA070;
   0x19A4C116; 0x1E376C08; 0x2748774C; 0x34B0BCB5;
   0x391C0CB3; 0x4ED8AA4A; 0x5B9CCA4F; 0x682E6FF3;
   0x748F82EE; 0x78A5636F; 0x84C87814; 0x8CC70208;
   0x90BEFFFA; 0xA4506CEB; 0xBEF9A3F7; 0xC67178F2].

(** The state of a running hash: the chaining value [h], the bytes [x] of
    the block being filled ([nx] is their number) and the number [len] of
    bytes written so far, a [uint64]. *)
Record digest : Type := mkDigest {
  h : list Z;
  x : list byte;
  len : Z
}.

(** [w[i]] for [i < 16]: big-endian words of the block. *)
Fixpoint be_words (p : list byte) : list Z :=
  match p with
  | b0 :: b1 :: b2 :: b3 :: rest =>
      Z.lor (Z.lor (Z.lor (Z.shiftl (byte_to_Z b0) 24) (Z.shiftl (byte_to_Z b1) 16))
                   (Z.shiftl (byte_to_Z b2) 8)) (byte_to_Z b3)
      :: be_words rest
  | _ => []
  end.

(** [w[i]] for [16 <= i < 64]; [rw] holds [w[i-1], w[i-2], ...], the most
    recent word first. *)
Fixpoint schedule (n : nat) (rw : list Z) : list Z :=
  match n with
  | O => rw
  | S n' =>
      let v1 := nth 1 rw 0 in
      let t1 := Z.lxor (Z.lxor (rotr v1 17) (rotr v1 19)) (Z.shiftr v1 10) in
      let v2 := nth 14 rw 0 in
      let t2 := Z.lxor (Z.lxor (rotr v2 7) (rotr v2 18)) (Z.shiftr v2 3) in
      schedule n' (add32 (add32 (add32 t1 (nth 6 rw 0)) t2) (nth 15 rw 0) :: rw)
  end.

(** One round of the compression loop on the working variables
    [a, b, c, d, e, f, g, h]. *)
Definition round (v : list Z) (kw : Z * Z) : list Z :=
  match v with
  | [a; b; c; d; e; f; g; h] =>
      let t1 := add32 (add32 (add32 (add32 h
                  (Z.lxor (Z.lxor (rotr e 6) (rotr e 11)) (rotr e 25)))
                  (Z.lxor (Z.land e f) (Z.land (not32 e) g))) (fst kw)) (snd kw) in
      let t2 := add32 (Z.lxor (Z.lxor (rotr a 2) (rotr a 13)) (rotr a 22))
                  (Z.lxor (Z.lxor (Z.land a b) (Z.land a c)) (Z.land b c)) in
      [add32 t1 t2; a; b; c; add32 d t1; e; f; g]
  | _ => v
  end.

Fixpoint add_words (h v : list Z) : list Z :=
  match h, v with
  | h0 :: h', a :: v' => add32 h0 a :: add_words h' v'
  | _, _ => []
  end.

(** [block] on one chunk of 64 bytes. *)
Definition block (h : list Z) (p : list byte) : list Z :=
  let w := rev' (schedule 48 (rev' (be_words p))) in
  add_words h (fold_left round (combine _K w) h).

Definition New : digest := {| h := init; x := []; len := 0 |}.

(** [Write], one byte at a time: the byte is stored in [x]; a full [x] is
    compressed into [h] and emptied. *)
Definition write_byte (d : digest) (b : byte) : digest :=
  let x' := x d ++ [b] in
  if (length x' =? chunk)%nat
  then {| h := block (h d) x'; x := []; len := (len d + 1) mod 2 ^ 64 |}
  else {| h := h d; x := x'; len := (len d + 1) mod 2 ^ 64 |}.

Definition Write (d : digest) (p : list byte) : digest * (Z * option error) :=
  (fold_left write_byte p d, (Z.of_nat (length p), None)).

(** [binary.BigEndian.PutUint64] and [PutUint32] *)
Definition be_bytes (n : nat) (v : Z) : list byte :=
  map (fun i => byte_of_Z (Z.shiftr v (8 * Z.of_nat i))) (rev' (seq 0 n)).

(** [checkSum]: pad with [0x80], zeros up to 56 modulo 64 and the length in
    bits, then serialise the eight words. *)
Definition checkSum (d : digest) : list byte :=
  let t := (if len d mod 64 <? 56 then 56 - len d mod 64 else 64 + 56 - len d mod 64) in
  let padlen := Byte.x80 :: repeat Byte.x00 (Z.to_nat (t - 1))
                  ++ be_bytes 8 (Z.shiftl (len d) 3 mod 2 ^ 64) in
  let d' := fst (Write d padlen) in
  flat_map (be_bytes 4) (h d').

(** [Sum] appends the digest to [b]; the receiver is copied, not changed. *)
Definition Sum (d : digest) (b : list byte) : list byte := b ++ checkSum d.

Definition Sum256 (data : list byte) : list byte :=
  checkSum (fst (Write New data)).

End sha256.

(** ** [crypto/hmac], instantiated with [sha256.New] *)

Module hmac.

Record hmac : Type := mkHmac {
  opad : list byte;
  ipad : list byte;
  outer : sha256.digest;
  inner : sha256.digest
}.

Definition xor_byte (c : Z) (b : byte) : byte := byte_of_Z (Z.lxor (byte_to_Z b) c).

(** [copy(make([]byte, blocksize), key)] *)
Definition pad_key (key : list byte) : list byte :=
  take sha256.BlockSize key ++ repeat Byte.x00 (sha256.BlockSize - length key).

Definition New (key : list byte) : hmac :=
  let outer := sha256.New in
  let inner := sha256.New in
  let '(outer, key) :=
    if (sha256.BlockSize <? length key)%nat
    then let outer := fst (sha256.Write outer key) in (outer, sha256.Sum outer [])
    else (outer, key) in
  let ipad := map (xor_byte 0x36) (pad_key key) in
  let opad := map (xor_byte 0x5c) (pad_key key) in
  {| opad := opad; ipad := ipad; outer := outer;
     inner := fst (sha256.Write inner ipad) |}.

Definition Write (hm : hmac) (p : list byte) : hmac * (Z * option error) :=
  let '(inner', r) := sha256.Write (inner hm) p in
  ({| opad := opad hm; ipad := ipad hm; outer := outer hm; inner := inner' |}, r).

Definition Sum (hm : hmac) (b : list byte) : list byte :=
  let origLen := length b in
  let b := sha256.Sum (inner hm) b in
  let outer := sha256.New in                         (* [h.outer.Reset()] *)
  let outer := fst (sha256.Write outer (opad hm)) in
  let outer := fst (sha256.Write outer (drop origLen b)) in
  sha256.Sum outer (take origLen b).

End hmac.

(** ** [url.go] *)

(** Modelled from the spec: the configuration struct and the [Imgproxy]
    struct that [ImgproxyURLData] embeds are declared outside [url.go]. Their
    fields are the ones [Generate] reads ([i.cfg.BaseURL], [i.cfg.EncodePath],
    [i.cfg.SignatureSize], [i.key], [i.salt]), at the types [getSignatureHash]
    takes them: a base URL, a signature size in bytes, the path-encoding
    mode. *)
Record Config : Type := mkConfig {
  BaseURL : string;
  SignatureSize : Z;
  EncodePath : bool
}.

(** Modelled from the spec: the signing key and the salt are byte sequences,
    possibly empty. *)
Record Imgproxy : Type := mkImgproxy {
  cfg : Config;
  key : list byte;
  salt : list byte
}.

(** [ImgproxyURLData]: the embedded [*Imgproxy] and the option map. *)
Record ImgproxyURLData : Type := mkURLData {
  imgproxy : Imgproxy;
  Options : gmap string string
}.

Definition insecureSignature : string := "insecure".

Record OptionDescriptor : Type := mkOpt {
  long : string;
  short : string
}.

Definition allOptions : list OptionDescriptor :=
  [
    mkOpt "resize" "rs";
    mkOpt "size" "s";
    mkOpt "resizing_type" "rt";
    mkOpt "resizing_algorithm" "ra";
    mkOpt "width" "w";
    mkOpt "height" "h";
    mkOpt "min-width" "mw";
    mkOpt "min-height" "mh";
    mkOpt "zoom" "z";
    mkOpt "dpr" "dpr";
    mkOpt "enlarge" "el";
    mkOpt "extend" "ex";
    mkOpt "extend_aspect_ratio" "ea";
    mkOpt "gravity" "g";
    mkOpt "crop" "c";
    mkOpt "trim" "t";
    mkOpt "padding" "p";
    mkOpt "auto_rotate" "ar";
    mkOpt "rotate" "ro";
    mkOpt "background" "bg";
    mkOpt "background_alpha" "ba";
    mkOpt "adjust" "ad";
    mkOpt "brightness" "br";
    mkOpt "contrast" "co";
    mkOpt "saturation" "sa";
    mkOpt "blur" "bl";
    mkOpt "sharpen" "sh";
    mkOpt "pixelate" "px";
    mkOpt "unsharp_masking" "um";
    mkOpt "blur_detections" "bd";
    mkOpt "draw_detections" "dd";
    mkOpt "gradient" "gr";
    mkOpt "watermark" "wm";
    mkOpt "watermark_url" "wu";
    mkOpt "watermark_text" "wt";
    mkOpt "watermark_size" "ws";
    mkOpt "watermark_rotate" "wr";
    mkOpt "watermark_shadow" "wsh";
    mkOpt "style" "st";
    mkOpt "strip_metadata" "sm";
    mkOpt "keep_copyright" "kc";
    mkOpt "dpi" "dpi";
    mkOpt "strip_color_profile" "scp";
    mkOpt "enforce_thumbnail" "et";
    mkOpt "quality" "q";
    mkOpt "format_quality" "fq";
    mkOpt "autoquality" "aq";
    mkOpt "max_bytes" "mb";
    mkOpt "jpeg_options" "jpeg_options";
    mkOpt "png_options" "png_options";
    mkOpt "webp_options" "webp_options";
    mkOpt "format" "f";
    mkOpt "page" "page";
    mkOpt "pages" "pages";
    mkOpt "disable_animation" "da";
    mkOpt "video_thumbnail_second" "vts";
    mkOpt "video_thumbnail_keyframes" "vtk";
    mkOpt "video_thumbnail_tile" "vtt";
    mkOpt "fallback_image_url" "fi";
    mkOpt "skip_processing" "sp";
    mkOpt "raw" "raw";
    mkOpt "cachebuster" "cb";
    mkOpt "expires" "exp";
    mkOpt "filename" "fn";
    mkOpt "return_attachment" "ra";
    mkOpt "preset" "pr";
    mkOpt "hashsum" "hs";
    mkOpt "max_src_resolution" "msr";
    mkOpt "max_src_file_size" "msfs";
    mkOpt "max_animation_frames" "maf";
    mkOpt "max_animation_frame_resolution" "mafr"
  ].

(** [m[k]] on a Go map: the zero value [""] when [k] is absent. *)
Definition get (m : gmap string string) (k : string) : string :=
  default "" (m !! k).

Definition processOptionMap (opts : list OptionDescriptor) : gmap string string :=
  fold_left (fun optionMap o => <[long o := short o]> optionMap) opts ∅.

(** [sort.Strings]: ascending byte-wise order. *)
Definition sort_Strings (keys : list string) : list string :=
  merge_sort String.le keys.

(** The keys a [for key := range m] loop visits; Go leaves their order
    unspecified, here it is the order of [map_to_list]. *)
Definition range_keys (m : gmap string string) : list string :=
  (map_to_list m).*1.

(** Lines 128-131: [opts[o.long]], or [opts[o.short]] when that is empty. *)
Definition lookup_option (opts : gmap string string) (o : OptionDescriptor) : string :=
  let option := get opts (long o) in
  if is_empty option then get opts (short o) else option.

(** Body of the loop over [allOptions], lines 127-138, on the pair of the
    string [options] and the map [opts]. *)
Definition registry_step (st : string * gmap string string) (o : OptionDescriptor)
  : string * gmap string string :=
  let '(options, opts) := st in
  let option := lookup_option opts o in
  if is_empty option then (options, opts)
  else (options +:+ (short o +:+ ":" +:+ option +:+ "/"),
        delete (long o) (delete (short o) opts)).

Definition registry_pass (reg : list OptionDescriptor) (st : string * gmap string string)
  : string * gmap string string :=
  fold_left registry_step reg st.

(** Body of the loop over the sorted keys, lines 149-157. The key is replaced
    by its short code before [opts[key]] is read. *)
Definition leftover_step (optionMap opts : gmap string string)
    (options : string) (k : string) : string :=
  let short := get optionMap k in
  let k := if negb (is_empty short) then short else k in
  options +:+ (k +:+ ":" +:+ get opts k +:+ "/").

(** Lines 141-157; [keys] are the keys of [opts] in the order [range] gave. *)
Definition leftover_pass (optionMap opts : gmap string string)
    (keys : list string) (options : string) : string :=
  fold_left (leftover_step optionMap opts) (sort_Strings keys) options.

(** [s[:n]] on a slice of capacity [length s]. *)
Definition slice_to (s : list byte) (n : Z) : option (list byte) :=
  if (0 <=? n) && (n <=? Z.of_nat (length s)) then Some (take (Z.to_nat n) s) else None.

Definition getSignatureHash (key salt : list byte) (signatureSize : Z) (payload : string)
  : result string :=
  let signature := hmac.New key in
  let '(signature, (_, err)) := hmac.Write signature salt in
  match err with
  | Some e => Err (WithStack e)
  | None =>
      let '(signature, (_, err)) := hmac.Write signature (bytes_of_string payload) in
      match err with
      | Some e => Err (WithStack e)
      | None =>
          match slice_to (hmac.Sum signature []) signatureSize with
          | Some s => Ok (base64.EncodeToString base64.RawURLEncoding s)
          | None => Panic
          end
      end
  end.

(** Lines 116-120 of [Generate]: the source in its encoded or plain form. *)
Definition encodePath (c : Config) (uri : string) : string :=
  if EncodePath c
  then base64.EncodeToString base64.RawStdEncoding (bytes_of_string uri)
  else "plain/" +:+ uri.

(** Lines 122-157 of [Generate]: the registry loop and the leftover loop.
    The result is the string [options] and the map [opts] afterwards; [range]
    is the order in which [for key := range opts] visits the keys. *)
Definition canonicalize (range : gmap string string -> list string)
    (opts : gmap string string) : string * gmap string string :=
  let optionMap := processOptionMap allOptions in
  let '(options, opts) := registry_pass allOptions ("/", opts) in
  let keys := range opts in
  (leftover_pass optionMap opts keys options, opts).

(** Lines 161-170: the signature put in front of [uriWithOptions]. *)
Definition sign (i : Imgproxy) (uriWithOptions : string) : result string :=
  if (length (salt i) =? 0)%nat && (length (key i) =? 0)%nat
  then Ok insecureSignature
  else getSignatureHash (key i) (salt i) (SignatureSize (cfg i)) uriWithOptions.

(** [Generate], with the iteration order [range] of the leftover keys made
    explicit. It returns Go's [(string, error)] and the receiver afterwards:
    [opts] aliases [i.Options], so the deletions are visible to the caller. *)
Definition GenerateWith (range : gmap string string -> list string)
    (i : ImgproxyURLData) (uri : string) : result string * ImgproxyURLData :=
  let uri := encodePath (cfg (imgproxy i)) uri in
  let '(options, opts) := canonicalize range (Options i) in
  let uriWithOptions := options +:+ uri in
  let i' := {| imgproxy := imgproxy i; Options := opts |} in
  match sign (imgproxy i) uriWithOptions with
  | Ok signature =>
      (Ok ((BaseURL (cfg (imgproxy i)) +:+ signature) +:+ uriWithOptions), i')
  | Err e => (Err e, i')
  | Panic => (Panic, i')
  end.

Definition Generate : ImgproxyURLData -> string -> result string * ImgproxyURLData :=
  GenerateWith range_keys.

(** [SetOption], line 482. *)
Definition SetOption (i : ImgproxyURLData) (k value : string) : ImgproxyURLData :=
  {| imgproxy := imgproxy i; Options := <[k := value]> (Options i) |}.

(** ** Vocabulary of the statements *)

(** One segment of the options path, without its leading [/]. *)
Definition segment (k v : string) : string := k +:+ ":" +:+ v +:+ "/".

Definition concat_segments (l : list string) : string :=
  fold_right String.append "" l.

(** The descriptors for which the registry loop emits a segment, each with
    the value it emits, in the order of emission. *)
Fixpoint emitted (reg : list OptionDescriptor) (opts : gmap string string)
  : list (OptionDescriptor * string) :=
  match reg with
  | [] => []
  | o :: reg' =>
      let option := lookup_option opts o in
      if is_empty option then emitted reg' opts
      else (o, option) :: emitted reg' (delete (long o) (delete (short o) opts))
  end.

Definition registry_segments (tr : list (OptionDescriptor * string)) : list string :=
  map (fun ov => segment (short (fst ov)) (snd ov)) tr.

(** The keys the registry loop deletes. *)
Definition removed_keys (tr : list (OptionDescriptor * string)) : list string :=
  flat_map (fun ov => [long (fst ov); short (fst ov)]) tr.

(** The key under which the leftover loop emits [k]. *)
Definition resolve (optionMap : gmap string string) (k : string) : string :=
  if negb (is_empty (get optionMap k)) then get optionMap k else k.

Definition leftover_segments (optionMap opts : gmap string string)
    (keys : list string) : list string :=
  map (fun k => segment (resolve optionMap k) (get opts (resolve optionMap k))) keys.

(** [k] names no descriptor of the registry, neither as long name nor as
    short code. *)
Definition unregistered (k : string) : Prop :=
  Forall (fun o => k <> long o /\ k <> short o) allOptions.

(** Strict byte-wise order on strings. *)
Definition string_lt (s1 s2 : string) : Prop := String.le s1 s2 /\ s1 <> s2.

(** The option map after a sequence of [SetOption] calls, first call first. *)
Definition SetOptions (i : ImgproxyURLData) (kvs : list (string * string)) : ImgproxyURLData :=
  fold_left (fun i kv => SetOption i (fst kv) (snd kv)) kvs i.

(** The options path [Generate] puts between the signature and the source,
    and the option map it leaves behind. *)
Definition optionsPath (opts : gmap string string) : string :=
  fst (canonicalize range_keys opts).

Definition after_registry (opts : gmap string string) : gmap string string :=
  snd (registry_pass allOptions ("/", opts)).

(** The configuration of the scenarios: base URL [https://img.example.com/],
    no key and no salt; the scenarios leave the signature size open. *)
Definition scenario_imgproxy (encode : bool) (signatureSize : Z) : Imgproxy :=
  mkImgproxy (mkConfig "https://img.example.com/" signatureSize encode) [] [].

#[global] Instance OptionDescriptor_eq_dec : EqDecision OptionDescriptor.
Proof. solve_decision. Defined.

(** The first descriptor of [reg] that [k] names, as long name or as short
    code: the one whose turn in the registry loop finds a lone key [k]. *)
Definition names (k : string) (o : OptionDescriptor) : bool :=
  bool_decide (long o = k \/ short o = k).

Definition first_naming (k : string) (reg : list OptionDescriptor) : option OptionDescriptor :=
  find (names k) reg.

(** Every long name is first named by its own descriptor, every short code
    by a descriptor with that short code. *)
Definition aliases_resolve (reg : list OptionDescriptor) : bool :=
  forallb (fun o =>
    match first_naming (long o) reg, first_naming (short o) reg with
    | Some o1, Some o2 => bool_decide (o1 = o) && bool_decide (short o2 = short o)
    | _, _ => false
    end) reg.

(** HMAC-SHA256 in one piece (RFC 2104): [H((K xor opad) || H((K xor ipad) || m))],
    where [K] is the key, hashed first when longer than a block, and filled
    with zeros to the block size. *)
Definition HMAC_SHA256 (k m : list byte) : list byte :=
  let k0 := if (64 <? length k)%nat then sha256.Sum256 k else k in
  let K := k0 ++ repeat Byte.x00 (64 - length k0) in
  sha256.Sum256 (map (hmac.xor_byte 0x5c) K
                 ++ sha256.Sum256 (map (hmac.xor_byte 0x36) K ++ m)).

Definition hex (bs : list byte) : string :=
  string_of_list_ascii
    (flat_map (fun b => let v := byte_to_Z b in
       let d i := match String.get (Z.to_nat i) "0123456789abcdef" with
                  | Some c => c | None => "?"%char end in
       [d (v / 16); d (v mod 16)]) bs).

(** ** [strconv], [strings] and [util.go] *)

Module strconv.

(** [strconv.Itoa], and [%d] of [fmt.Sprintf]: the decimal digits of the
    integer, after a [-] when it is negative. Go's [int] and [int64] are the
    integers of 64 bits; the function is given on all of [Z]. *)
Definition Itoa (i : Z) : string :=
  DecimalString.NilZero.string_of_int (Z.to_int i).

(** The integer a decimal numeral stands for. *)
Definition parse_decimal (s : string) : option Z :=
  option_map Z.of_int (DecimalString.NilZero.int_of_string s).

End strconv.

Module strings.

(** [strings.Join] *)
Fixpoint Join (elems : list string) (sep : string) : string :=
  match elems with
  | [] => ""
  | [e] => e
  | e :: rest => e +:+ sep +:+ Join rest sep
  end.

End strings.

Definition boolAsNumberString (i : bool) : string :=
  if i then "1" else "0".

(** ** The typed builders of [url.go]

    [ResizingType], [GravityEnum], [HexColor] and [WatermarkPosition] are
    string types; [fmt.Sprintf] is written out as the concatenation its
    format string stands for. *)

Definition ResizingTypeFit : string := "fit".
Definition ResizingTypeFill : string := "fill".
Definition ResizingTypeFillDown : string := "fill-down".
Definition ResizingTypeForce : string := "force".
Definition ResizingTypeAuto : string := "auto".

(** ["%s:%d:%d:%s:%s"] *)
Definition Resize (i : ImgproxyURLData) (resizingType : string) (width height : Z)
    (enlarge extend : bool) : ImgproxyURLData :=
  SetOption i "resize"
    (resizingType +:+ ":" +:+ strconv.Itoa width +:+ ":" +:+ strconv.Itoa height
     +:+ ":" +:+ boolAsNumberString enlarge +:+ ":" +:+ boolAsNumberString extend).

(** ["%d:%d:%s"] *)
Definition Size (i : ImgproxyURLData) (width height : Z) (enlarge : bool) : ImgproxyURLData :=
  SetOption i "size"
    (strconv.Itoa width +:+ ":" +:+ strconv.Itoa height
     +:+ ":" +:+ boolAsNumberString enlarge).

Definition ResizingType (i : ImgproxyURLData) (resizingType : string) : ImgproxyURLData :=
  SetOption i "resizing_type" resizingType.

Definition Width (i : ImgproxyURLData) (width : Z) : ImgproxyURLData :=
  SetOption i "width" (strconv.Itoa width).

Definition Height (i : ImgproxyURLData) (height : Z) : ImgproxyURLData :=
  SetOption i "height" (strconv.Itoa height).

Definition DPR (i : ImgproxyURLData) (dpr : Z) : ImgproxyURLData :=
  if 0 <? dpr then SetOption i "dpr" (strconv.Itoa dpr) else i.

Definition Enlarge (i : ImgproxyURLData) (enlarge : Z) : ImgproxyURLData :=
  SetOption i "enlarge" (strconv.Itoa enlarge).

Definition GravityEnumCenter : string := "ce".
Definition GravityEnumNorth : string := "no".
Definition GravityEnumSouth : string := "so".
Definition GravityEnumEast : string := "ea".
Definition GravityEnumWest : string := "we".
Definition GravityEnumNorthEast : string := "noea".
Definition GravityEnumNorthWest : string := "nowe".
Definition GravityEnumSouthEast : string := "soea".
Definition GravityEnumSouthWest : string := "sowe".
Definition GravityEnumSmart : string := "sm".

(** The field [Type] of the source is [Type_] here. *)
Record OffsetGravity : Type := mkOffsetGravity {
  Type_ : string;
  XOffset : Z;
  YOffset : Z
}.

Record FocusPoint : Type := mkFocusPoint {
  X : Z;
  Y : Z
}.

(** The values of the interface [GravitySetter]: the three types that
    implement it. *)
Inductive GravitySetter : Type :=
| OfOffsetGravity (o : OffsetGravity)
| OfFocusPoint (f : FocusPoint)
| OfGravityEnum (g : string).

(** ["%s:%d:%d"], ["fp:%d:%d"], [string(g)] *)
Definition GetStringOption (g : GravitySetter) : string :=
  match g with
  | OfOffsetGravity o =>
      Type_ o +:+ ":" +:+ strconv.Itoa (XOffset o) +:+ ":" +:+ strconv.Itoa (YOffset o)
  | OfFocusPoint f => "fp:" +:+ strconv.Itoa (X f) +:+ ":" +:+ strconv.Itoa (Y f)
  | OfGravityEnum g => g
  end.

(** [OffsetGravity] and [FocusPoint] set the long name, [GravityEnum] the
    short code. *)
Definition SetGravityOption (g : GravitySetter) (i : ImgproxyURLData) : ImgproxyURLData :=
  match g with
  | OfOffsetGravity _ => SetOption i "gravity" (GetStringOption g)
  | OfFocusPoint _ => SetOption i "gravity" (GetStringOption g)
  | OfGravityEnum _ => SetOption i "g" (GetStringOption g)
  end.

Definition Gravity (i : ImgproxyURLData) (g : GravitySetter) : ImgproxyURLData :=
  SetGravityOption g i.

Definition Quality (i : ImgproxyURLData) (quality : Z) : ImgproxyURLData :=
  SetOption i "quality" (strconv.Itoa quality).

Record RGBColor : Type := mkRGBColor {
  R : Z;
  G : Z;
  B : Z
}.

(** The values of the interface [BackgroundSetter]. *)
Inductive BackgroundSetter : Type :=
| OfHexColor (h : string)
| OfRGBColor (rgb : RGBColor).

(** [string(h)], ["%d:%d:%d"] *)
Definition SetBgOption (bg : BackgroundSetter) (i : ImgproxyURLData) : ImgproxyURLData :=
  match bg with
  | OfHexColor h => SetOption i "background" h
  | OfRGBColor rgb =>
      SetOption i "background"
        (strconv.Itoa (R rgb) +:+ ":" +:+ strconv.Itoa (G rgb) +:+ ":" +:+ strconv.Itoa (B rgb))
  end.

Definition Background (i : ImgproxyURLData) (bg : BackgroundSetter) : ImgproxyURLData :=
  SetBgOption bg i.

Definition Blur (i : ImgproxyURLData) (sigma : Z) : ImgproxyURLData :=
  SetOption i "blur" (strconv.Itoa sigma).

Definition Sharpen (i : ImgproxyURLData) (sigma : Z) : ImgproxyURLData :=
  SetOption i "sharpen" (strconv.Itoa sigma).

Definition WatermarkPositionCenter : string := "ce".
Definition WatermarkPositionNorth : string := "no".
Definition WatermarkPositionSouth : string := "so".
Definition WatermarkPositionEast : string := "ea".
Definition WatermarkPositionWest : string := "we".
Definition WatermarkPositionNorthEast : string := "noea".
Definition WatermarkPositionNorthWest : string := "nowe".
Definition WatermarkPositionSouthEast : string := "soea".
Definition WatermarkPositionSouthWest : string := "sowe".
Definition WatermarkPositionReplicate : string := "re".

(** The fields [X] and [Y] of the source are [OffsetX] and [OffsetY] here. *)
Record WatermarkOffset : Type := mkWatermarkOffset {
  OffsetX : Z;
  OffsetY : Z
}.

(** [offset] is a pointer, [None] is [nil]; [":%d:%d"], ["%d:%s%s:%d"]. *)
Definition Watermark (i : ImgproxyURLData) (opacity : Z) (position : string)
    (offset : option WatermarkOffset) (scale : Z) : ImgproxyURLData :=
  let offsetStr :=
    match offset with
    | Some offset => ":" +:+ strconv.Itoa (OffsetX offset) +:+ ":" +:+ strconv.Itoa (OffsetY offset)
    | None => ""
    end in
  SetOption i "watermark"
    (strconv.Itoa opacity +:+ ":" +:+ position +:+ offsetStr +:+ ":" +:+ strconv.Itoa scale).

Definition Preset (i : ImgproxyURLData) (presets : list string) : ImgproxyURLData :=
  SetOption i "preset" (strings.Join presets ":").

Definition CacheBuster (i : ImgproxyURLData) (buster : string) : ImgproxyURLData :=
  SetOption i "cachebuster" buster.

Definition Format (i : ImgproxyURLData) (extension : string) : ImgproxyURLData :=
  SetOption i "format" extension.

(** [gravity] is an interface value, [None] is [nil]. *)
Definition Crop (i : ImgproxyURLData) (width height : Z) (gravity : option GravitySetter)
  : ImgproxyURLData :=
  let crop := strconv.Itoa width +:+ ":" +:+ strconv.Itoa height in
  let crop :=
    match gravity with
    | Some gravity => crop +:+ (":" +:+ GetStringOption gravity)
    | None => crop
    end in
  SetOption i "crop" crop.

(** ** Further vocabulary *)

(** No descriptor but its own names a long name of the registry. *)
Definition long_names_private (reg : list OptionDescriptor) : bool :=
  forallb (fun o => bool_decide (filter (fun o' => names (long o) o' = true) reg = [o])) reg.

(** A string ends with [/]. *)
Definition ends_with_slash (s : string) : Prop := exists s', s = s' +:+ "/".

(** A character of a decimal numeral. *)
Definition is_decimal_char (c : ascii) : bool :=
  Ascii.eqb c "-" || ((48 <=? Z.of_N (N_of_ascii c)) && (Z.of_N (N_of_ascii c) <=? 57)).

(** * Theorems *)

(** ** Test vectors for the library models *)

Example sha256_abc :
  hex (sha256.Sum256 (bytes_of_string "abc"))
  = "ba7816bf8f01cfea414140de5dae2223b00361a396177a9cb410ff61f20015ad".
Proof. vm_compute. reflexivity. Qed.

Example sha256_empty :
  hex (sha256.Sum256 [])
  = "e3b0c44298fc1c149afbf4c8996fb92427ae41e4649b934ca495991b7852b855".
Proof. vm_compute. reflexivity. Qed.

Example hmac_rfc4231_case2 :
  hex (hmac.Sum (fst (hmac.Write (hmac.New (bytes_of_string "Jefe"))
                        (bytes_of_string "what do ya want for nothing?"))) [])
  = "5bdcc146bf60754e6a042426089575c75a003f089d2739839dec58b964ec3843".
Proof. vm_compute. reflexivity. Qed.

Example base64_alphabets_differ :
  base64.EncodeToString base64.RawStdEncoding (bytes_of_string "???") = "Pz8/"
  /\ base64.EncodeToString base64.RawURLEncoding (bytes_of_string "???") = "Pz8_"
  /\ base64.EncodeToString base64.StdEncoding (bytes_of_string "?") = "Pw==".
Proof. vm_compute. auto. Qed.

Example getSignatureHash_long_key :
  getSignatureHash (repeat Byte.x6b 70) (bytes_of_string "salty") 5 "/w:1/plain/x"
  = Ok "nh79evA".
Proof. vm_compute. reflexivity. Qed.

(** ** Strings *)

Section string_facts.

Lemma append_cons (c : ascii) (a b : string) :
  String c a +:+ b = String c (a +:+ b).
Proof. reflexivity. Qed.

Lemma append_nil_l (a : string) : "" +:+ a = a.
Proof. reflexivity. Qed.

Lemma append_assoc (a b c : string) : (a +:+ b) +:+ c = a +:+ (b +:+ c).
Proof.
  induction a as [|ch a IH]; [reflexivity|].
  now rewrite !append_cons, IH.
Qed.

Lemma append_nil_r (a : string) : a +:+ "" = a.
Proof.
  induction a as [|ch a IH]; [reflexivity|].
  now rewrite append_cons, IH.
Qed.

Lemma length_append (a b : string) :
  String.length (a +:+ b) = (String.length a + String.length b)%nat.
Proof.
  induction a as [|ch a IH]; [reflexivity|].
  rewrite append_cons. simpl. now rewrite IH.
Qed.

Lemma is_empty_true (s : string) : is_empty s = true <-> s = "".
Proof. destruct s; cbv [is_empty String.length Nat.eqb]; split; intros; congruence. Qed.

Lemma is_empty_false (s : string) : is_empty s = false <-> s <> "".
Proof. destruct s; cbv [is_empty String.length Nat.eqb]; split; intros; congruence. Qed.

Lemma concat_segments_app (l1 l2 : list string) :
  concat_segments (l1 ++ l2) = concat_segments l1 +:+ concat_segments l2.
Proof.
  induction l1 as [|s l1 IH]; simpl; [reflexivity|].
  now rewrite IH, append_assoc.
Qed.

End string_facts.

(** ** Bytes *)

Lemma byte_to_Z_range (b : byte) : 0 <= byte_to_Z b < 256.
Proof.
  unfold byte_to_Z. pose proof (Byte.to_N_bounded b). lia.
Qed.

Lemma byte_of_Z_to_Z (b : byte) : byte_of_Z (byte_to_Z b) = b.
Proof.
  unfold byte_of_Z. rewrite Z.mod_small by apply byte_to_Z_range.
  unfold byte_to_Z. now rewrite N2Z.id, Byte.of_to_N.
Qed.

Lemma byte_of_Z_eq (z : Z) (b : byte) : z mod 256 = byte_to_Z b -> byte_of_Z z = b.
Proof.
  intros H. unfold byte_of_Z. rewrite H. unfold byte_to_Z.
  now rewrite N2Z.id, Byte.of_to_N.
Qed.

(** ** Bit operations as arithmetic *)

Lemma lor_add (a lo n : Z) :
  0 <= n -> a mod 2 ^ n = 0 -> 0 <= lo < 2 ^ n -> Z.lor a lo = a + lo.
Proof.
  intros Hn Ha Hlo. apply coqutil.Z.bitblast.Z.or_to_plus.
  apply Z.bits_inj'. intros i Hi.
  rewrite Z.land_spec, Z.bits_0.
  destruct (Z.lt_ge_cases i n).
  - rewrite <- (Z.mod_pow2_bits_low a n i), Ha, Z.bits_0 by lia. reflexivity.
  - rewrite <- (Z.mod_small lo (2 ^ n)) by lia.
    rewrite Z.mod_pow2_bits_high by lia. apply andb_false_r.
Qed.

Lemma land_63 (a : Z) : Z.land a 0x3F = a mod 64.
Proof. change 0x3F with (Z.ones 6). now rewrite Z.land_ones by lia. Qed.

Ltac shifts_to_arith :=
  rewrite ?land_63, ?Z.shiftr_div_pow2, ?Z.shiftl_mul_pow2 by lia;
  change (2 ^ 6) with 64; change (2 ^ 8) with 256; change (2 ^ 12) with 4096;
  change (2 ^ 16) with 65536; change (2 ^ 18) with 262144.

Ltac arith := Z.div_mod_to_equations; lia.

(** ** Base64: decoding undoes encoding *)

Section base64_facts.
Import base64.

Lemma decodeMap_sym (enc : Encoding) (i : Z) :
  alphabet_ok enc = true -> 0 <= i < 64 -> decodeMap enc (sym enc i) = Some i.
Proof.
  intros Hok Hi. unfold alphabet_ok in Hok.
  rewrite forallb_forall in Hok.
  specialize (Hok (Z.to_nat i)). rewrite Z2Nat.id in Hok by lia.
  assert (Hin : In (Z.to_nat i) (seq 0 64)) by (apply in_seq; lia).
  specialize (Hok Hin).
  destruct (decodeMap enc (sym enc i)) as [j|]; [|discriminate].
  apply Z.eqb_eq in Hok. now subst.
Qed.

Lemma alphabet_ok_RawStd : alphabet_ok RawStdEncoding = true.
Proof. vm_compute. reflexivity. Qed.

Lemma alphabet_ok_RawURL : alphabet_ok RawURLEncoding = true.
Proof. vm_compute. reflexivity. Qed.

(** A full quantum: three bytes, four characters. *)
Lemma quantum3 (b0 b1 b2 : Z) :
  0 <= b0 < 256 -> 0 <= b1 < 256 -> 0 <= b2 < 256 ->
  let val := Z.lor (Z.lor (Z.shiftl b0 16) (Z.shiftl b1 8)) b2 in
  let d0 := Z.land (Z.shiftr val 18) 0x3F in
  let d1 := Z.land (Z.shiftr val 12) 0x3F in
  let d2 := Z.land (Z.shiftr val 6) 0x3F in
  let d3 := Z.land val 0x3F in
  let val' := Z.lor (Z.lor (Z.lor (Z.shiftl d0 18) (Z.shiftl d1 12)) (Z.shiftl d2 6)) d3 in
  (0 <= d0 < 64 /\ 0 <= d1 < 64 /\ 0 <= d2 < 64 /\ 0 <= d3 < 64)
  /\ Z.shiftr val' 16 mod 256 = b0 /\ Z.shiftr val' 8 mod 256 = b1 /\ val' mod 256 = b2.
Proof.
  intros H0 H1 H2 val d0 d1 d2 d3 val'.
  assert (Hv : val = b0 * 65536 + b1 * 256 + b2).
  { subst val. shifts_to_arith.
    rewrite (lor_add (b0 * 65536) (b1 * 256) 16) by (try change (2 ^ 16) with 65536; arith).
    rewrite (lor_add _ b2 8) by (try change (2 ^ 8) with 256; arith). reflexivity. }
  assert (Hd : (0 <= d0 < 64 /\ 0 <= d1 < 64 /\ 0 <= d2 < 64 /\ 0 <= d3 < 64)).
  { subst d0 d1 d2 d3. shifts_to_arith. arith. }
  split; [exact Hd|].
  assert (Hv' : val' = d0 * 262144 + d1 * 4096 + d2 * 64 + d3).
  { subst val'. shifts_to_arith.
    rewrite (lor_add (d0 * 262144) (d1 * 4096) 18) by (try change (2 ^ 18) with 262144; arith).
    rewrite (lor_add _ (d2 * 64) 12) by (try change (2 ^ 12) with 4096; arith).
    rewrite (lor_add _ d3 6) by (try change (2 ^ 6) with 64; arith). reflexivity. }
  assert (Heq : val' = val).
  { rewrite Hv'. subst d0 d1 d2 d3. shifts_to_arith. rewrite Hv. arith. }
  rewrite Heq, Hv. shifts_to_arith. arith.
Qed.

Lemma quantum2 (b0 b1 : Z) :
  0 <= b0 < 256 -> 0 <= b1 < 256 ->
  let val := Z.lor (Z.shiftl b0 16) (Z.shiftl b1 8) in
  let d0 := Z.land (Z.shiftr val 18) 0x3F in
  let d1 := Z.land (Z.shiftr val 12) 0x3F in
  let d2 := Z.land (Z.shiftr val 6) 0x3F in
  let val' := Z.lor (Z.lor (Z.shiftl d0 18) (Z.shiftl d1 12)) (Z.shiftl d2 6) in
  (0 <= d0 < 64 /\ 0 <= d1 < 64 /\ 0 <= d2 < 64)
  /\ Z.shiftr val' 16 mod 256 = b0 /\ Z.shiftr val' 8 mod 256 = b1.
Proof.
  intros H0 H1 val d0 d1 d2 val'.
  assert (Hv : val = b0 * 65536 + b1 * 256).
  { subst val. shifts_to_arith.
    now rewrite (lor_add (b0 * 65536) (b1 * 256) 16)
      by (try change (2 ^ 16) with 65536; arith). }
  assert (Hd : 0 <= d0 < 64 /\ 0 <= d1 < 64 /\ 0 <= d2 < 64).
  { subst d0 d1 d2. shifts_to_arith. arith. }
  split; [exact Hd|].
  assert (Hv' : val' = d0 * 262144 + d1 * 4096 + d2 * 64).
  { subst val'. shifts_to_arith.
    rewrite (lor_add (d0 * 262144) (d1 * 4096) 18) by (try change (2 ^ 18) with 262144; arith).
    now rewrite (lor_add _ (d2 * 64) 12) by (try change (2 ^ 12) with 4096; arith). }
  rewrite Hv'. subst d0 d1 d2. shifts_to_arith. rewrite Hv. arith.
Qed.

Lemma quantum1 (b0 : Z) :
  0 <= b0 < 256 ->
  let val := Z.shiftl b0 16 in
  let d0 := Z.land (Z.shiftr val 18) 0x3F in
  let d1 := Z.land (Z.shiftr val 12) 0x3F in
  let val' := Z.lor (Z.shiftl d0 18) (Z.shiftl d1 12) in
  (0 <= d0 < 64 /\ 0 <= d1 < 64) /\ Z.shiftr val' 16 mod 256 = b0.
Proof.
  intros H0 val d0 d1 val'.
  assert (Hd : 0 <= d0 < 64 /\ 0 <= d1 < 64).
  { subst d0 d1 val. shifts_to_arith. arith. }
  split; [exact Hd|].
  assert (Hv' : val' = d0 * 262144 + d1 * 4096).
  { subst val'. shifts_to_arith.
    now rewrite (lor_add (d0 * 262144) (d1 * 4096) 18)
      by (try change (2 ^ 18) with 262144; arith). }
  rewrite Hv'. subst d0 d1 val. shifts_to_arith. arith.
Qed.

(** Induction on byte lists three bytes at a time, as [Encode] consumes them. *)
Lemma list_ind3 {A} (P : list A -> Prop) :
  P [] -> (forall a, P [a]) -> (forall a b, P [a; b]) ->
  (forall a b c l, P l -> P (a :: b :: c :: l)) ->
  forall l, P l.
Proof.
  intros H0 H1 H2 H3.
  assert (H : forall l, P l /\ (forall a, P (a :: l)) /\ (forall a b, P (a :: b :: l))).
  { induction l as [|x l (IH0 & IH1 & IH2)]; [now auto|].
    split; [apply IH1|]. split; [intros; apply IH2|].
    intros a b. now apply H3. }
  intros l. apply H.
Qed.

Theorem DecodeString_EncodeToString (enc : Encoding) (src : list byte) :
  padChar enc = None -> alphabet_ok enc = true ->
  DecodeString enc (EncodeToString enc src) = Some src.
Proof.
  intros Hpad Hok. induction src as [|b0|b0 b1|b0 b1 b2 rest IH] using list_ind3.
  - reflexivity.
  - cbn [EncodeToString DecodeString]. unfold pad. rewrite Hpad.
    destruct (quantum1 (byte_to_Z b0) (byte_to_Z_range b0)) as ((Hd0 & Hd1) & Hb0).
    rewrite !decodeMap_sym by assumption. cbn [mbind option_bind].
    now rewrite (byte_of_Z_eq _ b0 Hb0).
  - cbn [EncodeToString DecodeString]. unfold pad. rewrite Hpad.
    destruct (quantum2 (byte_to_Z b0) (byte_to_Z b1) (byte_to_Z_range b0)
                (byte_to_Z_range b1)) as ((Hd0 & Hd1 & Hd2) & Hb0 & Hb1).
    rewrite !decodeMap_sym by assumption. cbn [mbind option_bind].
    now rewrite (byte_of_Z_eq _ b0 Hb0), (byte_of_Z_eq _ b1 Hb1).
  - cbn [EncodeToString DecodeString].
    destruct (quantum3 (byte_to_Z b0) (byte_to_Z b1) (byte_to_Z b2) (byte_to_Z_range b0)
                (byte_to_Z_range b1) (byte_to_Z_range b2))
      as ((Hd0 & Hd1 & Hd2 & Hd3) & Hb0 & Hb1 & Hb2).
    rewrite !decodeMap_sym by assumption. cbn [mbind option_bind].
    rewrite IH. cbn [mbind option_bind].
    now rewrite (byte_of_Z_eq _ b0 Hb0), (byte_of_Z_eq _ b1 Hb1), (byte_of_Z_eq _ b2 Hb2).
Qed.

(** Without padding, [n] bytes give [ceil (4n / 3)] characters. *)
Lemma length_EncodeToString (enc : Encoding) (src : list byte) :
  padChar enc = None ->
  String.length (EncodeToString enc src) = ((4 * length src + 2) / 3)%nat.
Proof.
  intros Hpad. induction src as [|b0|b0 b1|b0 b1 b2 rest IH] using list_ind3.
  - reflexivity.
  - cbn [EncodeToString]. unfold pad. now rewrite Hpad.
  - cbn [EncodeToString]. unfold pad. now rewrite Hpad.
  - cbn [EncodeToString String.length]. rewrite IH. cbn [length].
    replace (4 * S (S (S (length rest))) + 2)%nat
      with ((4 * length rest + 2) + 4 * 3)%nat by lia.
    rewrite Nat.div_add by lia. lia.
Qed.

(** Every character of an encoding is a character of its alphabet. *)
Lemma sym_in_alphabet (enc : Encoding) (i : Z) :
  String.length (encode enc) = 64%nat -> 0 <= i < 64 ->
  In (sym enc i) (list_ascii_of_string (encode enc)).
Proof.
  intros Hlen Hi. unfold sym.
  assert (Hn : (Z.to_nat i < String.length (encode enc))%nat) by lia.
  revert Hn. generalize (Z.to_nat i). generalize (encode enc).
  induction s as [|c s IH]; intros n Hn; simpl in *; [lia|].
  destruct n as [|n]; [now left|]. right. apply IH. lia.
Qed.

Lemma EncodeToString_alphabet (enc : Encoding) (src : list byte) :
  padChar enc = None -> String.length (encode enc) = 64%nat ->
  Forall (fun c => In c (list_ascii_of_string (encode enc)))
    (list_ascii_of_string (EncodeToString enc src)).
Proof.
  intros Hpad Hlen. induction src as [|b0|b0 b1|b0 b1 b2 rest IH] using list_ind3.
  - constructor.
  - cbn [EncodeToString list_ascii_of_string]. unfold pad. rewrite Hpad.
    destruct (quantum1 (byte_to_Z b0) (byte_to_Z_range b0)) as ((Hd0 & Hd1) & _).
    repeat constructor; now apply sym_in_alphabet.
  - cbn [EncodeToString list_ascii_of_string]. unfold pad. rewrite Hpad.
    destruct (quantum2 (byte_to_Z b0) (byte_to_Z b1) (byte_to_Z_range b0)
                (byte_to_Z_range b1)) as ((Hd0 & Hd1 & Hd2) & _).
    repeat constructor; now apply sym_in_alphabet.
  - cbn [EncodeToString list_ascii_of_string].
    destruct (quantum3 (byte_to_Z b0) (byte_to_Z b1) (byte_to_Z b2) (byte_to_Z_range b0)
                (byte_to_Z_range b1) (byte_to_Z_range b2))
      as ((Hd0 & Hd1 & Hd2 & Hd3) & _).
    repeat (constructor; [now apply sym_in_alphabet|]). exact IH.
Qed.

End base64_facts.

(** ** SHA-256: writes compose, and a digest has 32 bytes *)

Section sha256_facts.
Import sha256.

Lemma Write_app (d : digest) (p q : list byte) :
  fst (Write (fst (Write d p)) q) = fst (Write d (p ++ q)).
Proof. unfold Write. cbn [fst]. now rewrite fold_left_app. Qed.

Lemma Write_no_error (d : digest) (p : list byte) : snd (snd (Write d p)) = None.
Proof. reflexivity. Qed.

Lemma length_round (v : list Z) (kw : Z * Z) : length (round v kw) = length v.
Proof.
  destruct v as [|a [|b [|c [|d [|e [|f [|g [|h' [|i v]]]]]]]]]; reflexivity.
Qed.

Lemma length_rounds (l : list (Z * Z)) (v : list Z) :
  length (fold_left round l v) = length v.
Proof.
  revert v. induction l as [|kw l IH]; intros v; [reflexivity|].
  cbn [fold_left]. now rewrite IH, length_round.
Qed.

Lemma length_add_words (h v : list Z) :
  length v = length h -> length (add_words h v) = length h.
Proof.
  revert v. induction h as [|h0 h IH]; intros [|a v] Hl; try discriminate; [reflexivity|].
  cbn [add_words length]. f_equal. apply IH. now injection Hl.
Qed.

Lemma length_block (h : list Z) (p : list byte) : length (block h p) = length h.
Proof. unfold block. apply length_add_words, length_rounds. Qed.

Lemma length_h_write_byte (d : digest) (b : byte) :
  length (h (write_byte d b)) = length (h d).
Proof.
  unfold write_byte. destruct (_ =? _)%nat; cbn [h]; [apply length_block|reflexivity].
Qed.

Lemma length_h_Write (d : digest) (p : list byte) :
  length (h (fst (Write d p))) = length (h d).
Proof.
  unfold Write. cbn [fst]. revert d.
  induction p as [|b p IH]; intros d; [reflexivity|].
  cbn [fold_left]. now rewrite IH, length_h_write_byte.
Qed.

Lemma length_be_bytes (n : nat) (v : Z) : length (be_bytes n v) = n.
Proof.
  unfold be_bytes, rev'. now rewrite length_map, <- rev_alt, length_rev, length_seq.
Qed.

Lemma length_flat_map_be_bytes (ws : list Z) :
  length (flat_map (be_bytes 4) ws) = (4 * length ws)%nat.
Proof.
  induction ws as [|w ws IH]; [reflexivity|].
  cbn [flat_map]. rewrite length_app, length_be_bytes, IH. cbn [length]. lia.
Qed.

Lemma length_checkSum (d : digest) :
  length (h d) = 8%nat -> length (checkSum d) = Size.
Proof.
  intros Hd. unfold checkSum.
  now rewrite length_flat_map_be_bytes, length_h_Write, Hd.
Qed.

Lemma length_Sum256 (data : list byte) : length (Sum256 data) = 32%nat.
Proof. unfold Sum256. apply length_checkSum. now rewrite length_h_Write. Qed.

End sha256_facts.

(** ** HMAC: the running hash computes the RFC 2104 formula *)

Section hmac_facts.

Lemma pad_key_short (k : list byte) :
  (length k <= 64)%nat -> hmac.pad_key k = k ++ repeat Byte.x00 (64 - length k).
Proof. intros Hk. unfold hmac.pad_key, sha256.BlockSize. now rewrite take_ge by lia. Qed.

Lemma hmac_Write_no_error (hm : hmac.hmac) (p : list byte) :
  snd (snd (hmac.Write hm p)) = None.
Proof. reflexivity. Qed.

Lemma hmac_streaming (k p q : list byte) :
  hmac.Sum (fst (hmac.Write (fst (hmac.Write (hmac.New k) p)) q)) []
  = HMAC_SHA256 k (p ++ q).
Proof.
  unfold HMAC_SHA256.
  set (k0 := if (64 <? length k)%nat then sha256.Sum256 k else k).
  assert (Hk0 : (length k0 <= 64)%nat).
  { subst k0. destruct (64 <? length k)%nat eqn:E.
    - rewrite length_Sum256. lia.
    - apply Nat.ltb_ge in E. lia. }
  assert (Hnew : hmac.New k =
    hmac.mkHmac (map (hmac.xor_byte 0x5c) (hmac.pad_key k0))
                (map (hmac.xor_byte 0x36) (hmac.pad_key k0))
                (if (64 <? length k)%nat then fst (sha256.Write sha256.New k)
                 else sha256.New)
                (fst (sha256.Write sha256.New
                        (map (hmac.xor_byte 0x36) (hmac.pad_key k0))))).
  { unfold hmac.New, sha256.BlockSize. subst k0.
    destruct (64 <? length k)%nat; reflexivity. }
  rewrite Hnew, pad_key_short by exact Hk0.
  unfold hmac.Write, hmac.Sum, sha256.Sum, sha256.Sum256.
  cbn [hmac.inner hmac.opad hmac.ipad hmac.outer fst sha256.Write length app take drop].
  unfold sha256.Write. cbn [fst].
  rewrite <- !fold_left_app. now rewrite take_0, drop_0.
Qed.

Lemma length_HMAC_SHA256 (k m : list byte) : length (HMAC_SHA256 k m) = 32%nat.
Proof. unfold HMAC_SHA256. apply length_Sum256. Qed.

End hmac_facts.

(** ** The signature generator *)

Lemma slice_to_in_range (s : list byte) (n : Z) :
  0 <= n <= Z.of_nat (length s) -> slice_to s n = Some (take (Z.to_nat n) s).
Proof.
  intros Hn. unfold slice_to.
  replace ((0 <=? n) && (n <=? Z.of_nat (length s))) with true; [reflexivity|].
  symmetry. apply andb_true_iff. split; apply Z.leb_le; lia.
Qed.

(** The two writes feed the salt, then the payload, to one HMAC. *)
Lemma getSignatureHash_HMAC (key salt : list byte) (signatureSize : Z) (payload : string) :
  0 <= signatureSize <= 32 ->
  getSignatureHash key salt signatureSize payload
  = Ok (base64.EncodeToString base64.RawURLEncoding
          (take (Z.to_nat signatureSize)
             (HMAC_SHA256 key (salt ++ bytes_of_string payload)))).
Proof.
  intros Hn.
  transitivity
    (match slice_to (hmac.Sum (fst (hmac.Write (fst (hmac.Write (hmac.New key) salt))
                                      (bytes_of_string payload))) []) signatureSize with
     | Some s => Ok (base64.EncodeToString base64.RawURLEncoding s)
     | None => Panic
     end); [reflexivity|].
  rewrite hmac_streaming, slice_to_in_range; [reflexivity|].
  rewrite length_HMAC_SHA256. lia.
Qed.

(** Outside that range the slice expression panics. *)
Lemma getSignatureHash_out_of_range (key salt : list byte) (signatureSize : Z) (payload : string) :
  signatureSize < 0 \/ 32 < signatureSize ->
  getSignatureHash key salt signatureSize payload = Panic.
Proof.
  intros Hn.
  transitivity
    (match slice_to (hmac.Sum (fst (hmac.Write (fst (hmac.Write (hmac.New key) salt))
                                      (bytes_of_string payload))) []) signatureSize with
     | Some s => Ok (base64.EncodeToString base64.RawURLEncoding s)
     | None => Panic
     end); [reflexivity|].
  rewrite hmac_streaming. unfold slice_to. rewrite length_HMAC_SHA256.
  replace ((0 <=? signatureSize) && (signatureSize <=? Z.of_nat 32)) with false; [reflexivity|].
  symmetry. apply andb_false_iff. rewrite !Z.leb_gt. lia.
Qed.

(** C1. For [0 <= signatureSize <= 32], [getSignatureHash] returns, without
    error, the unpadded URL-safe base64 encoding of the first
    [signatureSize] bytes of HMAC-SHA256 keyed by [key] over the salt
    followed by the payload; decoding the signature gives those bytes back,
    and there are exactly [signatureSize] of them. *)
Theorem getSignatureHash_spec (key salt : list byte) (signatureSize : Z) (payload : string) :
  0 <= signatureSize <= 32 ->
  let mac := HMAC_SHA256 key (salt ++ bytes_of_string payload) in
  let truncated := take (Z.to_nat signatureSize) mac in
  getSignatureHash key salt signatureSize payload
    = Ok (base64.EncodeToString base64.RawURLEncoding truncated)
  /\ base64.DecodeString base64.RawURLEncoding
       (base64.EncodeToString base64.RawURLEncoding truncated) = Some truncated
  /\ Z.of_nat (length truncated) = signatureSize.
Proof.
  intros Hn mac truncated. split; [|split].
  - now apply getSignatureHash_HMAC.
  - apply DecodeString_EncodeToString; [reflexivity|apply alphabet_ok_RawURL].
  - subst truncated mac. rewrite length_take, length_HMAC_SHA256. lia.
Qed.

Lemma getSignatureHash_spec_witness :
  0 <= 8 <= 32
  /\ getSignatureHash (bytes_of_string "k") [] 8 "/plain/x"
     = Ok (base64.EncodeToString base64.RawURLEncoding
             (take 8 (HMAC_SHA256 (bytes_of_string "k") ([] ++ bytes_of_string "/plain/x")))).
Proof.
  assert (H : 0 <= 8 <= 32) by lia.
  split; [exact H|].
  exact (proj1 (getSignatureHash_spec (bytes_of_string "k") [] 8 "/plain/x" H)).
Defined.

Example getSignatureHash_value :
  getSignatureHash (bytes_of_string "k") [] 8 "/plain/x" = Ok "SBKEN5NezO8".
Proof. vm_compute. reflexivity. Qed.

(** ** The option canonicalizer *)

Section canonicalizer_facts.
Implicit Types (opts : gmap string string) (reg : list OptionDescriptor).
Implicit Types (options k : string).

Lemma registry_pass_fst reg options opts :
  fst (registry_pass reg (options, opts))
  = options +:+ concat_segments (registry_segments (emitted reg opts)).
Proof.
  unfold registry_pass. revert options opts.
  induction reg as [|o reg IH]; intros options opts.
  - cbn. now rewrite append_nil_r.
  - cbn [fold_left emitted registry_step].
    destruct (is_empty (lookup_option opts o)).
    + apply IH.
    + rewrite IH. cbn [registry_segments map concat_segments fold_right fst snd].
      now rewrite append_assoc.
Qed.

Lemma registry_pass_snd reg options options' opts :
  snd (registry_pass reg (options, opts)) = snd (registry_pass reg (options', opts)).
Proof.
  unfold registry_pass. revert options options' opts.
  induction reg as [|o reg IH]; intros options options' opts; [reflexivity|].
  cbn [fold_left registry_step].
  destruct (is_empty (lookup_option opts o)); apply IH.
Qed.

(** The map after the registry loop: the deleted keys are gone, every
    other key is as before. *)
Lemma registry_pass_lookup reg options opts k :
  snd (registry_pass reg (options, opts)) !! k
  = if decide (k ∈ removed_keys (emitted reg opts)) then None else opts !! k.
Proof.
  unfold registry_pass. revert options opts.
  induction reg as [|o reg IH]; intros options opts.
  - cbn. case_decide as Hin; [|reflexivity]. now apply elem_of_nil in Hin.
  - cbn [fold_left emitted registry_step].
    destruct (is_empty (lookup_option opts o)); [apply IH|].
    rewrite IH. cbn [removed_keys flat_map fst snd app].
    fold (removed_keys (emitted reg (delete (long o) (delete (short o) opts)))).
    rewrite !lookup_delete.
    repeat case_decide; try reflexivity; exfalso;
      repeat match goal with
             | H : _ ∈ _ :: _ |- _ => apply elem_of_cons in H as [H|H]
             | H : ¬ (_ ∈ _ :: _) |- _ => rewrite !not_elem_of_cons in H
             end; intuition congruence.
Qed.

Lemma emitted_sublist reg opts : (emitted reg opts).*1 `sublist_of` reg.
Proof.
  revert opts. induction reg as [|o reg IH]; intros opts; [constructor|].
  cbn [emitted]. destruct (is_empty (lookup_option opts o)).
  - apply sublist_cons, IH.
  - cbn [fmap list_fmap fst]. apply sublist_skip, IH.
Qed.

Lemma emitted_nonempty reg opts o v : (o, v) ∈ emitted reg opts -> v <> "".
Proof.
  revert opts. induction reg as [|o' reg IH]; intros opts; cbn [emitted].
  - intros H. now apply elem_of_nil in H.
  - destruct (is_empty (lookup_option opts o')) eqn:E; [apply IH|].
    intros [Heq|Hin]%elem_of_cons; [|eapply IH, Hin].
    injection Heq as -> ->. now apply is_empty_false.
Qed.

Lemma leftover_pass_spec (optionMap : gmap string string) opts (keys : list string) options :
  leftover_pass optionMap opts keys options
  = options +:+ concat_segments (leftover_segments optionMap opts (sort_Strings keys)).
Proof.
  unfold leftover_pass. generalize (sort_Strings keys) as ks. intros ks. revert options.
  induction ks as [|k ks IH]; intros options.
  - cbn. now rewrite append_nil_r.
  - cbn [fold_left leftover_segments map concat_segments fold_right].
    rewrite IH. unfold leftover_step. fold (resolve optionMap k).
    unfold segment. fold (leftover_segments optionMap opts ks).
    now rewrite append_assoc.
Qed.

Lemma canonicalize_spec (range : gmap string string -> list string) opts :
  canonicalize range opts
  = ("/" +:+ concat_segments
               (registry_segments (emitted allOptions opts)
                ++ leftover_segments (processOptionMap allOptions) (after_registry opts)
                     (sort_Strings (range (after_registry opts)))),
     after_registry opts).
Proof.
  unfold canonicalize, after_registry.
  destruct (registry_pass allOptions ("/", opts)) as [options opts'] eqn:E.
  cbn [snd]. rewrite leftover_pass_spec.
  replace options with (fst (registry_pass allOptions ("/", opts))) by now rewrite E.
  now rewrite registry_pass_fst, concat_segments_app, append_assoc.
Qed.

(** [sort.Strings] returns the keys it is given, in ascending order, and
    its result does not depend on the order they come in. *)
Lemma sort_Strings_perm (keys : list string) : sort_Strings keys ≡ₚ keys.
Proof. apply merge_sort_Permutation. Qed.

Lemma sort_Strings_sorted (keys : list string) :
  StronglySorted String.le (sort_Strings keys).
Proof. apply StronglySorted_merge_sort; apply _. Qed.

Lemma sort_Strings_order_irrelevant (keys1 keys2 : list string) :
  keys1 ≡ₚ keys2 -> sort_Strings keys1 = sort_Strings keys2.
Proof.
  intros Hp. apply (StronglySorted_unique String.le); try apply sort_Strings_sorted.
  now rewrite !sort_Strings_perm.
Qed.

Lemma sort_Strings_strict (keys : list string) :
  NoDup keys -> StronglySorted string_lt (sort_Strings keys).
Proof.
  intros Hnd. rewrite <- sort_Strings_perm in Hnd.
  pose proof (sort_Strings_sorted keys) as Hs.
  induction Hs as [|k ks Hs IH Hall]; [constructor|].
  apply NoDup_cons in Hnd as [Hk Hnd].
  constructor; [now apply IH|].
  rewrite Forall_forall in Hall |- *. intros k' Hk'. split; [now apply Hall|].
  intros ->. apply Hk. now apply list_elem_of_In.
Qed.

Lemma elem_of_range_keys opts k : k ∈ range_keys opts <-> is_Some (opts !! k).
Proof.
  unfold range_keys. rewrite list_elem_of_fmap. split.
  - intros ([k' v] & -> & Hin). apply elem_of_map_to_list in Hin. now exists v.
  - intros [v Hv]. exists (k, v). split; [reflexivity|]. now apply elem_of_map_to_list.
Qed.

Lemma NoDup_range_keys opts : NoDup (range_keys opts).
Proof. apply NoDup_fst_map_to_list. Qed.

Lemma elem_of_sorted_keys opts k :
  k ∈ sort_Strings (range_keys opts) <-> is_Some (opts !! k).
Proof. now rewrite sort_Strings_perm, elem_of_range_keys. Qed.

End canonicalizer_facts.

(** ** The shape of the URL *)

Lemma GenerateWith_fst (range : gmap string string -> list string)
    (i : ImgproxyURLData) (uri : string) :
  let P := fst (canonicalize range (Options i)) in
  let E := encodePath (cfg (imgproxy i)) uri in
  fst (GenerateWith range i uri)
  = match sign (imgproxy i) (P +:+ E) with
    | Ok signature => Ok ((BaseURL (cfg (imgproxy i)) +:+ signature) +:+ (P +:+ E))
    | Err e => Err e
    | Panic => Panic
    end.
Proof.
  intros P E. subst P E. unfold GenerateWith.
  destruct (canonicalize range (Options i)) as [options opts].
  cbn [fst]. now destruct (sign _ _).
Qed.

Lemma GenerateWith_snd (range : gmap string string -> list string)
    (i : ImgproxyURLData) (uri : string) :
  snd (GenerateWith range i uri)
  = {| imgproxy := imgproxy i; Options := after_registry (Options i) |}.
Proof.
  unfold GenerateWith. rewrite canonicalize_spec.
  now destruct (sign _ _).
Qed.

(** ** Properties of [Generate] *)

(** C2. With an empty key and an empty salt, [Generate] returns, without
    error, the base URL followed by the literal [insecure] and the path,
    whatever the options and the source are; the path starts with [/], so
    [insecure] is the whole signature segment. *)
Theorem Generate_insecure (i : ImgproxyURLData) (uri : string) :
  key (imgproxy i) = [] -> salt (imgproxy i) = [] ->
  fst (Generate i uri)
  = Ok (BaseURL (cfg (imgproxy i)) +:+ "insecure"
        +:+ optionsPath (Options i) +:+ encodePath (cfg (imgproxy i)) uri)
  /\ exists rest, optionsPath (Options i) = "/" +:+ rest.
Proof.
  intros Hkey Hsalt. split.
  - unfold Generate. rewrite GenerateWith_fst. unfold sign.
    rewrite Hkey, Hsalt. cbn [length Nat.eqb andb].
    unfold insecureSignature, optionsPath. now rewrite append_assoc.
  - unfold optionsPath. rewrite canonicalize_spec. cbn [fst]. eauto.
Qed.

Lemma Generate_insecure_witness :
  let i := SetOption (mkURLData (scenario_imgproxy false 32) ∅) "width" "100" in
  key (imgproxy i) = [] /\ salt (imgproxy i) = []
  /\ fst (Generate i "http://example.com/image.jpg")
     = Ok (BaseURL (cfg (imgproxy i)) +:+ "insecure"
           +:+ optionsPath (Options i)
           +:+ encodePath (cfg (imgproxy i)) "http://example.com/image.jpg").
Proof.
  split; [reflexivity|]. split; [reflexivity|].
  exact (proj1 (Generate_insecure
                  (SetOption (mkURLData (scenario_imgproxy false 32) ∅) "width" "100")
                  "http://example.com/image.jpg" eq_refl eq_refl)).
Defined.

(** C3. With [EncodePath] on, the source is emitted as
    [base64.RawStdEncoding] of the bytes of [uri]: its characters are
    characters of the standard alphabet (no padding character, no [-] or
    [_]), [ceil (4n / 3)] of them for [n] bytes, and they decode to the bytes
    of [uri]. Scenario 1 evaluates to the base URL, [insecure/] and that
    encoding of the source. *)
Theorem Generate_encodes_std (i : ImgproxyURLData) (uri : string) :
  EncodePath (cfg (imgproxy i)) = true ->
  let E := base64.EncodeToString base64.RawStdEncoding (bytes_of_string uri) in
  let P := optionsPath (Options i) in
  encodePath (cfg (imgproxy i)) uri = E
  /\ fst (Generate i uri)
     = match sign (imgproxy i) (P +:+ E) with
       | Ok signature => Ok ((BaseURL (cfg (imgproxy i)) +:+ signature) +:+ (P +:+ E))
       | Err e => Err e
       | Panic => Panic
       end
  /\ Forall (fun c => In c (list_ascii_of_string base64.encodeStd))
       (list_ascii_of_string E)
  /\ String.length E = ((4 * length (bytes_of_string uri) + 2) / 3)%nat
  /\ base64.DecodeString base64.RawStdEncoding E = Some (bytes_of_string uri)
  /\ (forall signatureSize,
        fst (Generate (mkURLData (scenario_imgproxy true signatureSize) ∅)
               "http://example.com/image.jpg")
        = Ok ("https://img.example.com/insecure/"
              +:+ base64.EncodeToString base64.RawStdEncoding
                    (bytes_of_string "http://example.com/image.jpg"))
        /\ base64.EncodeToString base64.RawStdEncoding
             (bytes_of_string "http://example.com/image.jpg")
           = "aHR0cDovL2V4YW1wbGUuY29tL2ltYWdlLmpwZw").
Proof.
  intros Henc E P.
  assert (HE : encodePath (cfg (imgproxy i)) uri = E).
  { unfold encodePath. now rewrite Henc. }
  split; [exact HE|]. split.
  { unfold Generate. rewrite GenerateWith_fst. fold (optionsPath (Options i)).
    fold P. now rewrite HE. }
  split; [now apply (EncodeToString_alphabet base64.RawStdEncoding)|].
  split; [now apply length_EncodeToString|].
  split; [apply DecodeString_EncodeToString; [reflexivity|apply alphabet_ok_RawStd]|].
  intros signatureSize. split; vm_compute; reflexivity.
Qed.

Lemma Generate_encodes_std_witness :
  let i := mkURLData (scenario_imgproxy true 32) ∅ in
  EncodePath (cfg (imgproxy i)) = true
  /\ encodePath (cfg (imgproxy i)) "http://example.com/image.jpg"
     = base64.EncodeToString base64.RawStdEncoding
         (bytes_of_string "http://example.com/image.jpg").
Proof.
  split; [reflexivity|].
  exact (proj1 (Generate_encodes_std (mkURLData (scenario_imgproxy true 32) ∅)
                  "http://example.com/image.jpg" eq_refl)).
Defined.

(** ** The registry *)

(** C7, as the registry has it. The short code [ra] belongs to exactly two
    descriptors, [resizing_algorithm] and [return_attachment]; the short code
    of [resize] is [rs]. *)
Theorem ra_shared_by_resizing_algorithm_and_return_attachment :
  filter (fun o => short o = "ra") allOptions
  = [mkOpt "resizing_algorithm" "ra"; mkOpt "return_attachment" "ra"]
  /\ filter (fun o => long o = "resize") allOptions = [mkOpt "resize" "rs"].
Proof. split; vm_compute; reflexivity. Qed.

(** C7 as stated does not hold: no descriptor of the registry gives [resize]
    the short code [ra]. *)
Lemma resize_short_is_not_ra :
  ~ (mkOpt "resize" "ra" ∈ allOptions /\ mkOpt "return_attachment" "ra" ∈ allOptions).
Proof.
  intros [H _]. refine (bool_decide_eq_false_1 _ _ H). vm_compute. reflexivity.
Qed.

(** ** What the registry loop emits and what it leaves *)

Section registry_facts.
Implicit Types (opts : gmap string string) (reg : list OptionDescriptor).
Implicit Types (k v : string) (o : OptionDescriptor).

Lemma get_delete opts k k' : get (delete k' opts) k = "" \/ get (delete k' opts) k = get opts k.
Proof.
  unfold get. rewrite lookup_delete. case_decide; [now left|now right].
Qed.

(** An emitted value is non-empty and is the value the map had, under the
    long name or under the short code, when [Generate] was called. *)
Lemma emitted_value reg opts o v :
  (o, v) ∈ emitted reg opts ->
  o ∈ reg /\ v <> "" /\ (v = get opts (long o) \/ v = get opts (short o)).
Proof.
  revert opts. induction reg as [|o' reg IH]; intros opts; cbn [emitted].
  - intros H. now apply elem_of_nil in H.
  - destruct (is_empty (lookup_option opts o')) eqn:E.
    + intros H. destruct (IH _ H) as (Hin & Hv & Hget).
      split; [now apply list_elem_of_further|]. now split.
    + intros [Heq|Hin]%elem_of_cons.
      * injection Heq as -> ->. split; [apply list_elem_of_here|].
        split; [now apply is_empty_false|].
        unfold lookup_option. destruct (is_empty (get opts (long o'))); auto.
      * destruct (IH _ Hin) as (Hin' & Hv & Hget).
        split; [now apply list_elem_of_further|]. split; [exact Hv|].
        destruct Hget as [Hget|Hget]; [left|right]; rewrite Hget in Hv |- *.
        -- destruct (get_delete (delete (short o') opts) (long o) (long o')) as [H|H];
             rewrite H in Hv |- *; [congruence|].
           destruct (get_delete opts (long o) (short o')) as [H'|H'];
             rewrite H' in Hv |- *; congruence.
        -- destruct (get_delete (delete (short o') opts) (short o) (long o')) as [H|H];
             rewrite H in Hv |- *; [congruence|].
           destruct (get_delete opts (short o) (short o')) as [H'|H'];
             rewrite H' in Hv |- *; congruence.
Qed.

Lemma elem_of_removed_keys (tr : list (OptionDescriptor * string)) k :
  k ∈ removed_keys tr <-> exists o v, (o, v) ∈ tr /\ (k = long o \/ k = short o).
Proof.
  induction tr as [|[o v] tr IH]; cbn [removed_keys flat_map fst snd app].
  - split; [intros H; now apply elem_of_nil in H|].
    intros (o & v & H & _). now apply elem_of_nil in H.
  - fold (removed_keys tr). rewrite !elem_of_cons, IH. split.
    + intros [->|[->|(o' & v' & Hin & Hk)]].
      * exists o, v. split; [apply list_elem_of_here|now left].
      * exists o, v. split; [apply list_elem_of_here|now right].
      * exists o', v'. split; [now apply list_elem_of_further|exact Hk].
    + intros (o' & v' & [Heq|Hin]%elem_of_cons & Hk).
      * injection Heq as -> ->. destruct Hk; auto.
      * right. right. eauto.
Qed.

Lemma unregistered_not_removed opts k :
  unregistered k -> k ∉ removed_keys (emitted allOptions opts).
Proof.
  intros Hun (o & v & Hin & Hk)%elem_of_removed_keys.
  apply emitted_value in Hin as (Ho & _).
  unfold unregistered in Hun. rewrite Forall_forall in Hun.
  specialize (Hun o Ho). intuition congruence.
Qed.

Lemma after_registry_lookup opts k :
  after_registry opts !! k
  = if decide (k ∈ removed_keys (emitted allOptions opts)) then None else opts !! k.
Proof. apply registry_pass_lookup. Qed.

Lemma get_after_registry opts k :
  get (after_registry opts) k = "" \/ get (after_registry opts) k = get opts k.
Proof.
  unfold get. rewrite after_registry_lookup. case_decide; [now left|now right].
Qed.

(** [processOptionMap] maps the long names, and nothing else. *)
Lemma processOptionMap_lookup reg (m : gmap string string) k :
  fold_left (fun optionMap o => <[long o := short o]> optionMap) reg m !! k
  = match last (filter (fun o => long o = k) reg) with
    | Some o => Some (short o)
    | None => m !! k
    end.
Proof.
  revert m. induction reg as [|o reg IH]; intros m; [reflexivity|].
  cbn [fold_left]. rewrite IH, filter_cons. case_decide as Hk.
  - rewrite last_cons. destruct (last _); [reflexivity|].
    subst k. now rewrite lookup_insert_eq.
  - destruct (last _); [reflexivity|]. now rewrite lookup_insert_ne.
Qed.

Lemma processOptionMap_Some reg k s :
  processOptionMap reg !! k = Some s -> exists o, o ∈ reg /\ long o = k /\ short o = s.
Proof.
  unfold processOptionMap. rewrite processOptionMap_lookup.
  destruct (last _) as [o|] eqn:E; [|now rewrite lookup_empty].
  intros [= <-]. exists o.
  assert (Hin : o ∈ filter (fun o => long o = k) reg).
  { now apply last_Some_elem_of. }
  apply list_elem_of_filter in Hin as [Hk Hin]. auto.
Qed.

Lemma processOptionMap_None reg k :
  Forall (fun o => k <> long o) reg -> processOptionMap reg !! k = None.
Proof.
  intros Hall. destruct (processOptionMap reg !! k) as [s|] eqn:E; [|reflexivity].
  apply processOptionMap_Some in E as (o & Hin & Hk & _).
  rewrite Forall_forall in Hall. specialize (Hall o Hin). congruence.
Qed.

Lemma resolve_unregistered k : unregistered k -> resolve (processOptionMap allOptions) k = k.
Proof.
  intros Hun. unfold resolve, get. rewrite processOptionMap_None; [reflexivity|].
  eapply Forall_impl; [exact Hun|]. now intros o [H _].
Qed.

Lemma lookup_option_empty_inv opts o :
  is_empty (lookup_option opts o) = true ->
  get opts (long o) = "" /\ get opts (short o) = "".
Proof.
  unfold lookup_option. destruct (is_empty (get opts (long o))) eqn:E.
  - intros H. split; now apply is_empty_true.
  - congruence.
Qed.

Lemma registry_pass_get reg options opts k :
  get (snd (registry_pass reg (options, opts))) k = ""
  \/ get (snd (registry_pass reg (options, opts))) k = get opts k.
Proof.
  unfold get. rewrite registry_pass_lookup. case_decide; [now left|now right].
Qed.

(** After the registry loop no key of a descriptor has a value left: every
    segment of the leftover loop under a short code of the registry carries
    the empty value. *)
Lemma registry_drains reg options opts o :
  o ∈ reg ->
  get (snd (registry_pass reg (options, opts))) (long o) = ""
  /\ get (snd (registry_pass reg (options, opts))) (short o) = "".
Proof.
  revert options opts. induction reg as [|o' reg IH]; intros options opts.
  - intros H. now apply elem_of_nil in H.
  - intros [->|Hin]%elem_of_cons.
    + change (registry_pass (o' :: reg) (options, opts))
        with (registry_pass reg (registry_step (options, opts) o')).
      cbn [registry_step].
      destruct (is_empty (lookup_option opts o')) eqn:E.
      * apply lookup_option_empty_inv in E as [El Es].
        destruct (registry_pass_get reg options opts (long o')) as [-> | ->];
          destruct (registry_pass_get reg options opts (short o')) as [-> | ->]; auto.
      * set (options' := options +:+ _). set (opts' := delete _ _).
        assert (Hl : get opts' (long o') = "")
          by (subst opts'; unfold get; now rewrite lookup_delete_eq).
        assert (Hs : get opts' (short o') = "").
        { subst opts'. unfold get. rewrite !lookup_delete.
          repeat case_decide; try reflexivity; congruence. }
        destruct (registry_pass_get reg options' opts' (long o')) as [-> | ->];
          destruct (registry_pass_get reg options' opts' (short o')) as [-> | ->]; auto.
    + change (registry_pass (o' :: reg) (options, opts))
        with (registry_pass reg (registry_step (options, opts) o')).
      cbn [registry_step].
      destruct (is_empty (lookup_option opts o')); now apply IH.
Qed.

Lemma get_resolve_after_registry opts k :
  get (after_registry opts) k = "" ->
  get (after_registry opts) (resolve (processOptionMap allOptions) k) = "".
Proof.
  intros Hk. unfold resolve.
  destruct (is_empty (get (processOptionMap allOptions) k)) eqn:E; cbn [negb]; [exact Hk|].
  apply is_empty_false in E.
  assert (Hg : exists o, o ∈ allOptions /\ short o = get (processOptionMap allOptions) k).
  { unfold get in *. destruct (processOptionMap allOptions !! k) as [s|] eqn:Hs;
      [|now contradict E].
    apply processOptionMap_Some in Hs as (o & Ho & _ & Hshort).
    exists o. split; [exact Ho|exact Hshort]. }
  destruct Hg as (o & Ho & <-). now apply registry_drains.
Qed.


End registry_facts.

(** ** Properties of the options path *)

(** C5. The options path is [/], then the segments of the registry loop,
    then the segments of the leftover loop. The leftover loop visits the
    keys left in the map in strictly ascending byte-wise order. Every entry
    whose key names no descriptor is among them and is emitted as it is,
    [key:value/]. The set [{customtag: abc, width: 10}] gives
    [/w:10/customtag:abc/]. *)
Theorem leftovers_follow_registry_sorted (opts : gmap string string) :
  let optionMap := processOptionMap allOptions in
  let opts' := after_registry opts in
  let keys := sort_Strings (range_keys opts') in
  optionsPath opts
  = "/" +:+ concat_segments (registry_segments (emitted allOptions opts))
        +:+ concat_segments (leftover_segments optionMap opts' keys)
  /\ StronglySorted string_lt keys
  /\ keys ≡ₚ range_keys opts'
  /\ (forall k v, opts !! k = Some v -> unregistered k ->
        k ∈ keys /\ leftover_segments optionMap opts' [k] = [segment k v])
  /\ optionsPath {[ "customtag" := "abc"; "width" := "10" ]} = "/w:10/customtag:abc/".
Proof.
  intros optionMap opts' keys. split; [|split; [|split; [|split]]].
  - unfold optionsPath. rewrite canonicalize_spec. cbn [fst].
    now rewrite concat_segments_app.
  - apply sort_Strings_strict, NoDup_range_keys.
  - apply sort_Strings_perm.
  - intros k v Hk Hun.
    assert (Hk' : opts' !! k = Some v).
    { subst opts'. rewrite after_registry_lookup.
      case_decide as Hin; [|exact Hk]. now apply unregistered_not_removed in Hin. }
    split.
    + apply elem_of_sorted_keys. now exists v.
    + cbn [leftover_segments map]. subst optionMap.
      rewrite resolve_unregistered by exact Hun.
      unfold get. now rewrite Hk'.
  - vm_compute. reflexivity.
Qed.

(** C6, as the code has it. Take a key bound to the empty string. The
    registry loop emits no segment with an empty value. When it emits the
    segment of a descriptor naming the key, having found a value under the
    descriptor's other name, it deletes the key with it and the leftover loop
    has nothing for the key. Otherwise the key stays in the map, and the
    leftover loop emits a segment for it, with the empty value. The second
    case is the one at hand whenever the descriptors naming the key have no
    value under either name. *)
Theorem empty_value_reaches_leftover_pass (opts : gmap string string) (k : string) :
  opts !! k = Some "" ->
  let optionMap := processOptionMap allOptions in
  let opts' := after_registry opts in
  let keys := sort_Strings (range_keys opts') in
  let taken := exists o v, (o, v) ∈ emitted allOptions opts /\ (k = long o \/ k = short o) in
  Forall (fun ov => snd ov <> "") (emitted allOptions opts)
  /\ (taken -> opts' !! k = None /\ k ∉ keys)
  /\ (~ taken ->
      opts' !! k = Some "" /\ k ∈ keys
      /\ leftover_segments optionMap opts' [k] = [segment (resolve optionMap k) ""])
  /\ (Forall (fun o => (k = long o \/ k = short o) ->
                       get opts (long o) = "" /\ get opts (short o) = "") allOptions ->
      ~ taken).
Proof.
  intros Hk optionMap opts' keys taken.
  assert (Hlook : opts' !! k = if decide (k ∈ removed_keys (emitted allOptions opts))
                               then None else Some "").
  { subst opts'. now rewrite after_registry_lookup, Hk. }
  split; [|split; [|split]].
  - apply Forall_forall. intros [o v] Hin.
    apply emitted_value in Hin as (_ & Hv & _). exact Hv.
  - intros Ht. apply elem_of_removed_keys in Ht.
    rewrite decide_True in Hlook by exact Ht. split; [exact Hlook|].
    subst keys. rewrite elem_of_sorted_keys, Hlook. now intros [? ?].
  - intros Ht. subst taken. rewrite <- elem_of_removed_keys in Ht.
    rewrite decide_False in Hlook by exact Ht.
    split; [exact Hlook|]. split.
    + apply elem_of_sorted_keys. now exists "".
    + cbn [leftover_segments map]. subst opts' optionMap.
      rewrite get_resolve_after_registry; [reflexivity|].
      unfold get. now rewrite Hlook.
  - intros Hall (o & v & Hin & Hname). rewrite Forall_forall in Hall.
    apply emitted_value in Hin as (Ho & Hv & Hget).
    destruct (Hall o Ho Hname) as [Hl Hs]. destruct Hget; congruence.
Qed.

Lemma empty_value_reaches_leftover_pass_witness :
  let opts : gmap string string := {[ "width" := ""; "customtag" := "abc" ]} in
  opts !! "width" = Some ""
  /\ after_registry opts !! "width" = Some ""
  /\ "width" ∈ sort_Strings (range_keys (after_registry opts))
  /\ leftover_segments (processOptionMap allOptions) (after_registry opts) ["width"]
     = [segment (resolve (processOptionMap allOptions) "width") ""].
Proof.
  assert (H1 : ({[ "width" := ""; "customtag" := "abc" ]} : gmap string string)
                 !! "width" = Some "") by reflexivity.
  assert (H2 : Forall (fun o => ("width" = long o \/ "width" = short o) ->
                  get {[ "width" := ""; "customtag" := "abc" ]} (long o) = ""
                  /\ get {[ "width" := ""; "customtag" := "abc" ]} (short o) = "")
                 allOptions).
  { apply (bool_decide_unpack _). vm_compute. exact I. }
  pose proof (empty_value_reaches_leftover_pass _ _ H1) as (_ & _ & H3 & H4).
  split; [exact H1|]. exact (H3 (H4 H2)).
Defined.

Example empty_value_path :
  optionsPath {[ "width" := ""; "customtag" := "abc" ]} = "/customtag:abc/w:/".
Proof. vm_compute. reflexivity. Qed.

(** C6 as stated does not hold: [width] is bound to the empty string, the
    registry loop finds the value of its alias [w], emits [w:5] and deletes
    both keys, and the leftover loop has no segment for [width]. *)
Lemma empty_value_deleted_with_alias :
  let opts : gmap string string := {[ "width" := ""; "w" := "5" ]} in
  opts !! "width" = Some ""
  /\ after_registry opts !! "width" = None
  /\ sort_Strings (range_keys (after_registry opts)) = []
  /\ optionsPath opts = "/w:5/".
Proof. vm_compute. auto. Qed.

(** C10. [Generate] leaves the configuration as it is and removes from the
    option map exactly the long names and short codes of the descriptors
    whose segment the registry loop emitted; the keys the leftover loop
    emits are still in the map, bound as before. *)
Theorem Generate_removes_emitted_keys (i : ImgproxyURLData) (uri : string) (k : string) :
  let tr := emitted allOptions (Options i) in
  let i' := snd (Generate i uri) in
  let keys := sort_Strings (range_keys (Options i')) in
  imgproxy i' = imgproxy i
  /\ Options i' !! k = (if decide (k ∈ removed_keys tr) then None else Options i !! k)
  /\ optionsPath (Options i)
     = "/" +:+ concat_segments
                 (registry_segments tr
                  ++ leftover_segments (processOptionMap allOptions) (Options i') keys)
  /\ Forall (fun k' => is_Some (Options i' !! k') /\ Options i' !! k' = Options i !! k') keys.
Proof.
  intros tr i' keys.
  assert (Hi' : i' = {| imgproxy := imgproxy i; Options := after_registry (Options i) |})
    by apply GenerateWith_snd.
  subst keys. rewrite Hi'. cbn [imgproxy Options].
  split; [reflexivity|]. split; [apply after_registry_lookup|]. split.
  - unfold optionsPath. now rewrite canonicalize_spec.
  - apply Forall_forall. intros k' Hk'. apply elem_of_sorted_keys in Hk'.
    split; [exact Hk'|]. destruct Hk' as [v Hv].
    rewrite after_registry_lookup in Hv |- *. now case_decide.
Qed.

Example Generate_drains_options :
  snd (Generate (mkURLData (scenario_imgproxy true 32)
                   {[ "width" := "10"; "w" := "7"; "customtag" := "abc"; "zoom" := "" ]}) "x")
  = mkURLData (scenario_imgproxy true 32) {[ "customtag" := "abc"; "zoom" := "" ]}.
Proof. vm_compute. reflexivity. Qed.

(** C9. With exactly one of key and salt empty (and a signature size the
    digest can supply), [Generate] does not take the [insecure] branch: the
    signature it embeds is the encoded, truncated HMAC-SHA256 of the path,
    the empty component entering the MAC as the empty byte sequence. The
    signature decodes to the truncated MAC, and whenever the size is not 6
    (the one size whose encoding has the 8 characters of [insecure]) it
    differs from the placeholder by its length alone. *)
Theorem Generate_signs_with_one_secret (i : ImgproxyURLData) (uri : string) :
  (key (imgproxy i) <> [] /\ salt (imgproxy i) = [])
  \/ (key (imgproxy i) = [] /\ salt (imgproxy i) <> []) ->
  0 <= SignatureSize (cfg (imgproxy i)) <= 32 ->
  let P := optionsPath (Options i) +:+ encodePath (cfg (imgproxy i)) uri in
  let mac := HMAC_SHA256 (key (imgproxy i)) (salt (imgproxy i) ++ bytes_of_string P) in
  let truncated := take (Z.to_nat (SignatureSize (cfg (imgproxy i)))) mac in
  let signature := base64.EncodeToString base64.RawURLEncoding truncated in
  fst (Generate i uri) = Ok ((BaseURL (cfg (imgproxy i)) +:+ signature) +:+ P)
  /\ base64.DecodeString base64.RawURLEncoding signature = Some truncated
  /\ (SignatureSize (cfg (imgproxy i)) <> 6 -> signature <> insecureSignature)
  /\ (salt (imgproxy i) = [] -> mac = HMAC_SHA256 (key (imgproxy i)) (bytes_of_string P))
  /\ (key (imgproxy i) = [] -> mac = HMAC_SHA256 [] (salt (imgproxy i) ++ bytes_of_string P)).
Proof.
  intros Hone Hn P mac truncated signature.
  split; [|split; [|split; [|split]]].
  - unfold Generate. rewrite GenerateWith_fst. fold (optionsPath (Options i)). fold P.
    unfold sign.
    replace ((length (salt (imgproxy i)) =? 0)%nat && (length (key (imgproxy i)) =? 0)%nat)
      with false.
    + now rewrite getSignatureHash_HMAC.
    + symmetry. apply andb_false_iff.
      destruct Hone as [[Hk _]|[_ Hs]]; [right|left];
        [destruct (key (imgproxy i))|destruct (salt (imgproxy i))];
        solve [congruence|reflexivity].
  - apply DecodeString_EncodeToString; [reflexivity|apply alphabet_ok_RawURL].
  - intros Hsix Heq. apply (f_equal String.length) in Heq.
    subst signature. rewrite length_EncodeToString in Heq by reflexivity.
    subst truncated mac. rewrite length_take, length_HMAC_SHA256 in Heq.
    change (String.length insecureSignature) with 8%nat in Heq.
    apply Hsix.
    assert (H : (4 * (Z.to_nat (SignatureSize (cfg (imgproxy i))) `min` 32) + 2
                 < 8 * 3 + 3)%nat /\ (8 * 3 <= 4 * (Z.to_nat (SignatureSize (cfg (imgproxy i))) `min` 32) + 2)%nat).
    { rewrite <- Heq. split.
      - pose proof (Nat.mod_upper_bound
                      (4 * (Z.to_nat (SignatureSize (cfg (imgproxy i))) `min` 32) + 2) 3).
        pose proof (Nat.div_mod_eq
                      (4 * (Z.to_nat (SignatureSize (cfg (imgproxy i))) `min` 32) + 2) 3).
        lia.
      - pose proof (Nat.div_mod_eq
                      (4 * (Z.to_nat (SignatureSize (cfg (imgproxy i))) `min` 32) + 2) 3).
        lia. }
    lia.
  - intros Hs. subst mac. now rewrite Hs.
  - intros Hk. subst mac. now rewrite Hk.
Qed.

Lemma Generate_signs_with_one_secret_witness :
  let i := mkURLData (mkImgproxy (mkConfig "B/" 8 false) (bytes_of_string "k") []) ∅ in
  ((key (imgproxy i) <> [] /\ salt (imgproxy i) = [])
   \/ (key (imgproxy i) = [] /\ salt (imgproxy i) <> []))
  /\ 0 <= SignatureSize (cfg (imgproxy i)) <= 32
  /\ fst (Generate i "x")
     = Ok (("B/" +:+ base64.EncodeToString base64.RawURLEncoding
                       (take 8 (HMAC_SHA256 (bytes_of_string "k")
                                   ([] ++ bytes_of_string
                                            (optionsPath ∅ +:+ "plain/" +:+ "x")))))
           +:+ optionsPath ∅ +:+ "plain/" +:+ "x").
Proof.
  assert (H1 : (bytes_of_string "k" <> [] /\ @nil byte = [])
               \/ (bytes_of_string "k" = [] /\ @nil byte <> [])).
  { left. split; [discriminate|reflexivity]. }
  assert (H2 : 0 <= 8 <= 32) by lia.
  split; [exact H1|]. split; [exact H2|].
  exact (proj1 (Generate_signs_with_one_secret
                  (mkURLData (mkImgproxy (mkConfig "B/" 8 false) (bytes_of_string "k") []) ∅)
                  "x" H1 H2)).
Defined.

Example Generate_signed_value :
  fst (Generate (mkURLData (mkImgproxy (mkConfig "B/" 8 false) (bytes_of_string "k") []) ∅) "x")
  = Ok "B/SBKEN5NezO8/plain/x"
  /\ fst (Generate (mkURLData (mkImgproxy (mkConfig "B/" 32 false) [] (bytes_of_string "salty")) ∅) "x")
     = Ok "B/RPCF_C5dK7mOORtfYgBVYUEEkFippHc7seNc-KKimjc/plain/x".
Proof. vm_compute. auto. Qed.

(** ** Insertion order, iteration order and aliases *)

Lemma SetOptions_Options (i : ImgproxyURLData) (kvs : list (string * string)) :
  SetOptions i kvs
  = {| imgproxy := imgproxy i;
       Options := fold_left (fun m kv => <[fst kv := snd kv]> m) kvs (Options i) |}.
Proof.
  revert i. induction kvs as [|kv kvs IH]; intros i; [now destruct i|].
  unfold SetOptions in *. cbn [fold_left]. now rewrite IH.
Qed.

(** Calls of [SetOption] on distinct keys commute. *)
Lemma SetOptions_perm (kvs1 kvs2 : list (string * string)) :
  kvs1 ≡ₚ kvs2 -> NoDup kvs1.*1 ->
  forall i, SetOptions i kvs1 = SetOptions i kvs2.
Proof.
  intros Hp. induction Hp as [|kv l l' Hp IH|kv1 kv2 l|l l' l'' Hp1 IH1 Hp2 IH2];
    intros Hnd i.
  - reflexivity.
  - unfold SetOptions in *. cbn [fold_left]. apply IH.
    now apply NoDup_cons in Hnd as [_ Hnd].
  - unfold SetOptions, SetOption. cbn [fold_left imgproxy Options]. do 2 f_equal.
    apply insert_insert_ne.
    cbn [fmap list_fmap] in Hnd. apply NoDup_cons in Hnd as [Hin _].
    intros Heq. apply Hin. rewrite Heq. apply list_elem_of_here.
  - rewrite IH1 by exact Hnd. apply IH2. now rewrite <- Hp1.
Qed.

(** The order in which [range] hands out the keys does not show. *)
Lemma canonicalize_range_irrelevant (range1 range2 : gmap string string -> list string)
    (opts : gmap string string) :
  (forall m, range1 m ≡ₚ range_keys m) -> (forall m, range2 m ≡ₚ range_keys m) ->
  canonicalize range1 opts = canonicalize range2 opts.
Proof.
  intros H1 H2. rewrite !canonicalize_spec.
  rewrite (sort_Strings_order_irrelevant (range1 (after_registry opts))
             (range2 (after_registry opts))); [reflexivity|].
  now rewrite H1, H2.
Qed.

(** C4. Two option sets with the same entries give the same options path
    (and leave the same map), whatever the order in which their entries
    were set and whatever the order in which Go's [range] visits their
    keys. The segments of registered options are those of a sub-sequence
    of the registry, in registry order. The set [{width: 100, height: 50}]
    gives [/w:100/h:50/], whichever option is set first. *)
Theorem canonical_order_invariance (range1 range2 : gmap string string -> list string) :
  (forall m, range1 m ≡ₚ range_keys m) -> (forall m, range2 m ≡ₚ range_keys m) ->
  (forall m1 m2 : gmap string string,
      (forall k, m1 !! k = m2 !! k) -> canonicalize range1 m1 = canonicalize range2 m2)
  /\ (forall i kvs1 kvs2 uri,
        kvs1 ≡ₚ kvs2 -> NoDup kvs1.*1 ->
        GenerateWith range1 (SetOptions i kvs1) uri
        = GenerateWith range2 (SetOptions i kvs2) uri)
  /\ (forall m : gmap string string,
        (emitted allOptions m).*1 `sublist_of` allOptions
        /\ fst (canonicalize range1 m)
           = "/" +:+ concat_segments (registry_segments (emitted allOptions m))
                 +:+ concat_segments
                       (leftover_segments (processOptionMap allOptions) (after_registry m)
                          (sort_Strings (range_keys (after_registry m)))))
  /\ (forall i,
        fst (canonicalize range1
               (Options (SetOptions (mkURLData i ∅) [("width", "100"); ("height", "50")])))
        = "/w:100/h:50/"
        /\ fst (canonicalize range2
                  (Options (SetOptions (mkURLData i ∅) [("height", "50"); ("width", "100")])))
           = "/w:100/h:50/").
Proof.
  intros H1 H2.
  assert (Hself : forall m, range_keys m ≡ₚ range_keys m) by reflexivity.
  split; [|split; [|split]].
  - intros m1 m2 Heq. apply map_eq in Heq. subst m2.
    now apply canonicalize_range_irrelevant.
  - intros i kvs1 kvs2 uri Hp Hnd. rewrite (SetOptions_perm kvs1 kvs2 Hp Hnd).
    unfold GenerateWith.
    now rewrite (canonicalize_range_irrelevant range1 range2).
  - intros m. split; [apply emitted_sublist|].
    rewrite (canonicalize_range_irrelevant range1 range_keys) by assumption.
    rewrite canonicalize_spec. cbn [fst]. now rewrite concat_segments_app.
  - intros i. split.
    + rewrite (canonicalize_range_irrelevant range1 range_keys) by assumption.
      vm_compute. reflexivity.
    + rewrite (canonicalize_range_irrelevant range2 range_keys) by assumption.
      vm_compute. reflexivity.
Qed.

Lemma canonical_order_invariance_witness :
  (forall m, range_keys m ≡ₚ range_keys m)
  /\ (forall m, reverse (range_keys m) ≡ₚ range_keys m)
  /\ canonicalize range_keys {[ "width" := "10"; "customtag" := "abc"; "b" := "1" ]}
     = canonicalize (fun m => reverse (range_keys m))
         {[ "b" := "1"; "customtag" := "abc"; "width" := "10" ]}.
Proof.
  assert (H1 : forall m, range_keys m ≡ₚ range_keys m) by reflexivity.
  assert (H2 : forall m, reverse (range_keys m) ≡ₚ range_keys m)
    by (intros m; apply reverse_Permutation).
  split; [exact H1|]. split; [exact H2|].
  apply (proj1 (canonical_order_invariance range_keys
                  (fun m => reverse (range_keys m)) H1 H2)).
  intros k. vm_compute. reflexivity.
Defined.

Section lone_key.
Implicit Types (reg : list OptionDescriptor) (k v options : string).

Lemma lookup_option_empty (o : OptionDescriptor) : lookup_option ∅ o = "".
Proof. reflexivity. Qed.

Lemma registry_pass_empty reg options : registry_pass reg (options, ∅) = (options, ∅).
Proof.
  unfold registry_pass. induction reg as [|o reg IH]; [reflexivity|].
  cbn [fold_left registry_step]. now rewrite lookup_option_empty.
Qed.

Lemma emitted_empty reg : emitted reg ∅ = [].
Proof.
  induction reg as [|o reg IH]; [reflexivity|].
  cbn [emitted]. now rewrite lookup_option_empty.
Qed.

Lemma get_lone k v : get {[ k := v ]} k = v.
Proof. unfold get. now rewrite lookup_singleton_eq. Qed.

Lemma get_lone_ne k k' v : k <> k' -> get {[ k := v ]} k' = "".
Proof. intros Hne. unfold get. now rewrite lookup_singleton_ne. Qed.

Lemma lookup_option_lone k v (o : OptionDescriptor) :
  v <> "" -> lookup_option {[ k := v ]} o = if names k o then v else "".
Proof.
  intros Hv. apply is_empty_false in Hv. unfold lookup_option, names.
  case_bool_decide as Hn.
  - destruct (decide (long o = k)) as [->|Hl].
    + now rewrite get_lone, Hv.
    + destruct Hn as [Hn|Hn]; [congruence|].
      rewrite (get_lone_ne k (long o)) by congruence.
      rewrite Hn. apply get_lone.
  - rewrite !get_lone_ne by intuition congruence. reflexivity.
Qed.

Lemma delete_lone k v (o : OptionDescriptor) :
  names k o = true ->
  delete (long o) (delete (short o) ({[ k := v ]} : gmap string string)) = ∅.
Proof.
  intros Hn. apply bool_decide_eq_true in Hn. apply map_eq. intros k'.
  rewrite !lookup_delete, lookup_empty. repeat case_decide; try reflexivity.
  rewrite lookup_singleton_ne; [reflexivity|]. intuition congruence.
Qed.

(** A lone key with a value is taken by the first descriptor it names. *)
Lemma registry_pass_lone reg options k v :
  v <> "" ->
  registry_pass reg (options, {[ k := v ]})
  = match first_naming k reg with
    | Some o => (options +:+ segment (short o) v, ∅)
    | None => (options, {[ k := v ]})
    end.
Proof.
  intros Hv. unfold registry_pass, first_naming.
  induction reg as [|o reg IH]; [reflexivity|].
  cbn [fold_left registry_step find]. rewrite lookup_option_lone by exact Hv.
  destruct (names k o) eqn:Hn.
  - apply is_empty_false in Hv. rewrite Hv, delete_lone by exact Hn.
    apply registry_pass_empty.
  - exact IH.
Qed.

Lemma emitted_lone reg k v :
  v <> "" ->
  emitted reg {[ k := v ]}
  = match first_naming k reg with Some o => [(o, v)] | None => [] end.
Proof.
  intros Hv. unfold first_naming.
  induction reg as [|o reg IH]; [reflexivity|].
  cbn [emitted find]. rewrite lookup_option_lone by exact Hv.
  destruct (names k o) eqn:Hn.
  - apply is_empty_false in Hv. rewrite Hv, delete_lone by exact Hn.
    now rewrite emitted_empty.
  - exact IH.
Qed.

Lemma range_keys_empty : range_keys ∅ = [].
Proof. unfold range_keys. now rewrite map_to_list_empty. Qed.

Lemma optionsPath_lone k v (o : OptionDescriptor) :
  v <> "" -> first_naming k allOptions = Some o ->
  optionsPath {[ k := v ]} = "/" +:+ segment (short o) v
  /\ after_registry {[ k := v ]} = ∅.
Proof.
  intros Hv Ho. unfold optionsPath, after_registry, canonicalize.
  rewrite registry_pass_lone, Ho by exact Hv. cbn [fst snd].
  now rewrite range_keys_empty.
Qed.

Lemma aliases_resolve_allOptions : aliases_resolve allOptions = true.
Proof. vm_compute. reflexivity. Qed.

Lemma first_naming_allOptions (o : OptionDescriptor) :
  o ∈ allOptions ->
  first_naming (long o) allOptions = Some o
  /\ exists o', first_naming (short o) allOptions = Some o' /\ short o' = short o.
Proof.
  intros Ho. pose proof aliases_resolve_allOptions as H.
  unfold aliases_resolve in H. rewrite forallb_forall in H.
  apply list_elem_of_In in Ho. specialize (H o Ho).
  destruct (first_naming (long o) allOptions) as [o1|]; [|discriminate].
  destruct (first_naming (short o) allOptions) as [o2|]; [|discriminate].
  apply andb_true_iff in H as [H1 H2].
  apply bool_decide_eq_true in H1, H2. subst o1. eauto.
Qed.

End lone_key.

(** C8. For a descriptor of the registry and a non-empty value, the option
    set holding the value under the long name alone and the one holding it
    under the short code alone give the same options path, [/short:value/]:
    in both the registry loop emits that one segment, for a descriptor with
    that short code, and empties the map, so that the leftover loop emits
    nothing. *)
Theorem alias_equivalence (o : OptionDescriptor) (v : string) :
  o ∈ allOptions -> v <> "" ->
  optionsPath {[ long o := v ]} = "/" +:+ segment (short o) v
  /\ optionsPath {[ short o := v ]} = "/" +:+ segment (short o) v
  /\ emitted allOptions {[ long o := v ]} = [(o, v)]
  /\ (exists o', emitted allOptions {[ short o := v ]} = [(o', v)] /\ short o' = short o)
  /\ after_registry {[ long o := v ]} = ∅
  /\ after_registry {[ short o := v ]} = ∅.
Proof.
  intros Ho Hv.
  destruct (first_naming_allOptions o Ho) as (Hl & o' & Hs & Hshort).
  destruct (optionsPath_lone (long o) v o Hv Hl) as [Hp1 Ha1].
  destruct (optionsPath_lone (short o) v o' Hv Hs) as [Hp2 Ha2].
  rewrite Hshort in Hp2.
  split; [exact Hp1|]. split; [exact Hp2|]. split; [|split; [|now split]].
  - now rewrite emitted_lone, Hl.
  - exists o'. now rewrite emitted_lone, Hs.
Qed.

Lemma alias_equivalence_witness :
  mkOpt "gravity" "g" ∈ allOptions /\ "sm" <> ""
  /\ optionsPath {[ "gravity" := "sm" ]} = "/" +:+ segment "g" "sm"
  /\ optionsPath {[ "g" := "sm" ]} = "/" +:+ segment "g" "sm".
Proof.
  assert (H1 : mkOpt "gravity" "g" ∈ allOptions).
  { apply (bool_decide_unpack _). vm_compute. exact I. }
  assert (H2 : "sm" <> "") by discriminate.
  pose proof (alias_equivalence (mkOpt "gravity" "g") "sm" H1 H2) as (H3 & H4 & _).
  split; [exact H1|]. split; [exact H2|]. split; [exact H3|exact H4].
Defined.

(** The short code [ra] set alone is taken by [resizing_algorithm], the first
    of its two descriptors; the path is the same as for [return_attachment]. *)
Example ra_taken_by_resizing_algorithm :
  emitted allOptions {[ "ra" := "1" ]} = [(mkOpt "resizing_algorithm" "ra", "1")]
  /\ emitted allOptions {[ "return_attachment" := "1" ]}
     = [(mkOpt "return_attachment" "ra", "1")].
Proof. vm_compute. auto. Qed.

(** * Further properties of [url.go] *)

(** ** What [getSignatureHash] and [Generate] return *)

(** X2. [getSignatureHash] never returns an error. It returns a signature
    exactly when [0 <= signatureSize <= 32] and panics on the slice
    expression otherwise. A signature has [ceil (4 * signatureSize / 3)]
    characters, all of the URL-safe alphabet: none is [/], [+] or [=]. *)
Theorem getSignatureHash_outcome (key salt : list byte) (signatureSize : Z) (payload : string) :
  match getSignatureHash key salt signatureSize payload with
  | Ok signature =>
      0 <= signatureSize <= 32
      /\ String.length signature = ((4 * Z.to_nat signatureSize + 2) / 3)%nat
      /\ Forall (fun c => In c (list_ascii_of_string base64.encodeURL)
                          /\ c <> "/"%char /\ c <> "+"%char /\ c <> "="%char)
           (list_ascii_of_string signature)
  | Err _ => False
  | Panic => signatureSize < 0 \/ 32 < signatureSize
  end.
Proof.
  destruct (Z_lt_dec signatureSize 0) as [Hneg|Hnn].
  { rewrite getSignatureHash_out_of_range by lia. lia. }
  destruct (Z_lt_dec 32 signatureSize) as [Hbig|Hle].
  { rewrite getSignatureHash_out_of_range by lia. lia. }
  rewrite getSignatureHash_HMAC by lia.
  split; [lia|]. split.
  - rewrite length_EncodeToString by reflexivity.
    rewrite length_take, length_HMAC_SHA256. do 2 f_equal. lia.
  - eapply Forall_impl.
    + apply (EncodeToString_alphabet base64.RawURLEncoding); reflexivity.
    + intros c Hin. split; [exact Hin|].
      repeat split; intros ->; revert Hin; cbv;
        intros H;
        repeat (destruct H as [H|H]; [discriminate H|]); exact H.
Qed.

(** X1. [Generate] never returns an error either. With no key and no salt the
    URL is unsigned. Otherwise, also when both a key and a salt are set,
    and the signature size is within [0..32], the URL is the base URL, the
    signature and the payload, where the signature is the encoded,
    truncated HMAC-SHA256 keyed by the key over the salt followed by that
    same payload, the text after the signature. With a size outside
    [0..32] the call panics. *)
Theorem Generate_outcome (i : ImgproxyURLData) (uri : string) :
  let c := cfg (imgproxy i) in
  let payload := optionsPath (Options i) +:+ encodePath c uri in
  let mac := HMAC_SHA256 (key (imgproxy i)) (salt (imgproxy i) ++ bytes_of_string payload) in
  fst (Generate i uri)
  = match key (imgproxy i), salt (imgproxy i) with
    | [], [] => Ok ((BaseURL c +:+ "insecure") +:+ payload)
    | _, _ =>
        if (0 <=? SignatureSize c) && (SignatureSize c <=? 32)
        then Ok ((BaseURL c
                  +:+ base64.EncodeToString base64.RawURLEncoding
                        (take (Z.to_nat (SignatureSize c)) mac))
                 +:+ payload)
        else Panic
    end.
Proof.
  intros c payload mac. unfold Generate. rewrite GenerateWith_fst.
  fold (optionsPath (Options i)). fold c. fold payload. unfold sign. fold c. fold mac.
  assert (Hsigned :
    match getSignatureHash (key (imgproxy i)) (salt (imgproxy i)) (SignatureSize c) payload with
    | Ok signature => Ok ((BaseURL c +:+ signature) +:+ payload)
    | Err e => Err e
    | Panic => Panic
    end
    = if (0 <=? SignatureSize c) && (SignatureSize c <=? 32)
      then Ok ((BaseURL c
                +:+ base64.EncodeToString base64.RawURLEncoding
                      (take (Z.to_nat (SignatureSize c)) mac))
               +:+ payload)
      else Panic).
  { destruct ((0 <=? SignatureSize c) && (SignatureSize c <=? 32)) eqn:E.
    - apply andb_true_iff in E as [E1 E2]. apply Z.leb_le in E1, E2.
      now rewrite getSignatureHash_HMAC by lia.
    - apply andb_false_iff in E. rewrite !Z.leb_gt in E.
      now rewrite getSignatureHash_out_of_range by lia. }
  destruct (key (imgproxy i)) as [|k ks], (salt (imgproxy i)) as [|s ss];
    cbn [length Nat.eqb andb]; try exact Hsigned. reflexivity.
Qed.

Example Generate_signed_with_key_and_salt :
  fst (Generate (Width (mkURLData (mkImgproxy (mkConfig "B/" 32 false)
                                     (bytes_of_string "secret") (bytes_of_string "salty")) ∅) 300)
         "http://example.com/image.jpg")
  = Ok "B/Uz3lUK4lA2eOQaSGfu-juL1G7iFLbIXNS-M8MH6fcBk/w:300/plain/http://example.com/image.jpg".
Proof. vm_compute. reflexivity. Qed.

(** X3. With [EncodePath] off the source follows the options path as the
    literal [plain/] and the source itself, unescaped, and the signature is
    taken over it in that form. Scenario 2 evaluates to
    [https://img.example.com/insecure/plain/http://example.com/image.jpg]. *)
Theorem Generate_plain (i : ImgproxyURLData) (uri : string) :
  EncodePath (cfg (imgproxy i)) = false ->
  let P := optionsPath (Options i) in
  encodePath (cfg (imgproxy i)) uri = "plain/" +:+ uri
  /\ fst (Generate i uri)
     = match sign (imgproxy i) (P +:+ "plain/" +:+ uri) with
       | Ok signature =>
           Ok ((BaseURL (cfg (imgproxy i)) +:+ signature) +:+ (P +:+ "plain/" +:+ uri))
       | Err e => Err e
       | Panic => Panic
       end
  /\ (forall signatureSize,
        fst (Generate (mkURLData (scenario_imgproxy false signatureSize) ∅)
               "http://example.com/image.jpg")
        = Ok "https://img.example.com/insecure/plain/http://example.com/image.jpg").
Proof.
  intros Henc P.
  assert (HE : encodePath (cfg (imgproxy i)) uri = "plain/" +:+ uri).
  { unfold encodePath. now rewrite Henc. }
  split; [exact HE|]. split.
  - unfold Generate. rewrite GenerateWith_fst. fold (optionsPath (Options i)).
    fold P. now rewrite HE.
  - intros signatureSize. vm_compute. reflexivity.
Qed.

Lemma Generate_plain_witness :
  let i := mkURLData (scenario_imgproxy false 32) ∅ in
  EncodePath (cfg (imgproxy i)) = false
  /\ encodePath (cfg (imgproxy i)) "a b/c?d" = "plain/" +:+ "a b/c?d".
Proof.
  split; [reflexivity|].
  exact (proj1 (Generate_plain (mkURLData (scenario_imgproxy false 32) ∅) "a b/c?d" eq_refl)).
Defined.

(** ** The shape of the options path *)

Lemma segment_ends_with_slash (k v : string) : ends_with_slash (segment k v).
Proof.
  exists (k +:+ ":" +:+ v). unfold segment. now rewrite !append_assoc.
Qed.

Lemma concat_segments_slash (l : list string) :
  Forall ends_with_slash l -> forall s, ends_with_slash s -> ends_with_slash (s +:+ concat_segments l).
Proof.
  induction 1 as [|x l [x' ->] _ IH]; intros s Hs.
  - cbn. now rewrite append_nil_r.
  - cbn [concat_segments fold_right]. rewrite <- append_assoc.
    apply IH. exists (s +:+ x'). now rewrite append_assoc.
Qed.

Lemma optionsPath_starts_with_slash (opts : gmap string string) :
  exists rest, optionsPath opts = "/" +:+ rest.
Proof.
  unfold optionsPath. rewrite canonicalize_spec. cbn [fst]. eexists. reflexivity.
Qed.

Lemma registry_segments_slash (tr : list (OptionDescriptor * string)) :
  Forall ends_with_slash (registry_segments tr).
Proof.
  induction tr as [|ov tr IH]; constructor; [apply segment_ends_with_slash|exact IH].
Qed.

Lemma leftover_segments_slash (optionMap opts : gmap string string) (keys : list string) :
  Forall ends_with_slash (leftover_segments optionMap opts keys).
Proof.
  induction keys as [|k keys IH]; constructor; [apply segment_ends_with_slash|exact IH].
Qed.

Lemma optionsPath_ends_with_slash (opts : gmap string string) :
  ends_with_slash (optionsPath opts).
Proof.
  unfold optionsPath. rewrite canonicalize_spec. cbn [fst].
  apply (concat_segments_slash
           (registry_segments (emitted allOptions opts)
            ++ leftover_segments (processOptionMap allOptions) (after_registry opts)
                 (sort_Strings (range_keys (after_registry opts))))).
  - apply Forall_app. split; [apply registry_segments_slash|apply leftover_segments_slash].
  - exists "". reflexivity.
Qed.

Lemma optionsPath_empty : optionsPath ∅ = "/".
Proof. vm_compute. reflexivity. Qed.

(** X4. The options path starts with [/] and ends with [/], so that the
    source follows a [/] whatever the options are; with no option it is
    [/] alone. *)
Theorem optionsPath_shape (opts : gmap string string) :
  (exists rest, optionsPath opts = "/" +:+ rest)
  /\ ends_with_slash (optionsPath opts)
  /\ optionsPath ∅ = "/".
Proof.
  split; [apply optionsPath_starts_with_slash|].
  split; [apply optionsPath_ends_with_slash|apply optionsPath_empty].
Qed.

(** ** Which value a descriptor emits *)

Section precedence.
Implicit Types (opts : gmap string string) (reg : list OptionDescriptor).
Implicit Types (k v : string) (o : OptionDescriptor).

Lemma names_false k o : names k o = false -> long o <> k /\ short o <> k.
Proof. unfold names. intros H. apply bool_decide_eq_false in H. tauto. Qed.

Lemma get_delete_ne opts k k' : k' <> k -> get (delete k' opts) k = get opts k.
Proof. intros Hne. unfold get. now rewrite lookup_delete_ne. Qed.

(** The value under a long name is emitted by the first descriptor naming
    that long name, when this is the descriptor of the long name. *)
Lemma emitted_long reg opts o v :
  first_naming (long o) reg = Some o -> get opts (long o) = v -> v <> "" ->
  (o, v) ∈ emitted reg opts.
Proof.
  unfold first_naming. revert opts.
  induction reg as [|o' reg IH]; intros opts Hfirst Hget Hv; [discriminate|].
  cbn [find] in Hfirst. cbn [emitted]. destruct (names (long o) o') eqn:Hn.
  - injection Hfirst as ->.
    assert (Hopt : lookup_option opts o = v).
    { unfold lookup_option. rewrite Hget. apply is_empty_false in Hv. now rewrite Hv. }
    rewrite Hopt. apply is_empty_false in Hv. rewrite Hv. apply list_elem_of_here.
  - apply names_false in Hn as [Hl Hs].
    destruct (is_empty (lookup_option opts o')).
    + now apply IH.
    + apply list_elem_of_further, IH; [exact Hfirst| |exact Hv].
      now rewrite !get_delete_ne.
Qed.

(** The value under a short code is emitted by the first descriptor naming
    that short code, when nothing is under its long name. *)
Lemma emitted_short reg opts o v :
  first_naming (short o) reg = Some o -> get opts (long o) = "" ->
  get opts (short o) = v -> v <> "" ->
  (o, v) ∈ emitted reg opts.
Proof.
  unfold first_naming. revert opts.
  induction reg as [|o' reg IH]; intros opts Hfirst Hlong Hget Hv; [discriminate|].
  cbn [find] in Hfirst. cbn [emitted]. destruct (names (short o) o') eqn:Hn.
  - injection Hfirst as ->.
    assert (Hopt : lookup_option opts o = v).
    { unfold lookup_option. now rewrite Hlong, Hget. }
    rewrite Hopt. apply is_empty_false in Hv. rewrite Hv. apply list_elem_of_here.
  - apply names_false in Hn as [Hl Hs].
    destruct (is_empty (lookup_option opts o')).
    + now apply IH.
    + apply list_elem_of_further, IH; [exact Hfirst| | |exact Hv].
      * destruct (get_delete (delete (short o') opts) (long o) (long o')) as [H|H];
          rewrite H; [reflexivity|].
        destruct (get_delete opts (long o) (short o')) as [H'|H']; rewrite H'; auto.
      * now rewrite !get_delete_ne.
Qed.

(** A descriptor emits at most once. *)
Lemma emitted_functional reg opts o v v' :
  NoDup reg -> (o, v) ∈ emitted reg opts -> (o, v') ∈ emitted reg opts -> v = v'.
Proof.
  intros Hnd. revert opts. induction Hnd as [|o' reg Hnotin Hnd IH]; intros opts; cbn [emitted].
  - intros H. now apply elem_of_nil in H.
  - destruct (is_empty (lookup_option opts o')); [apply IH|].
    intros [H1|H1]%elem_of_cons [H2|H2]%elem_of_cons.
    + congruence.
    + injection H1 as -> _. apply emitted_value in H2 as [H2 _]. contradiction.
    + injection H2 as -> _. apply emitted_value in H1 as [H1 _]. contradiction.
    + eapply IH; eassumption.
Qed.

Lemma NoDup_allOptions : NoDup allOptions.
Proof. apply (bool_decide_unpack _). vm_compute. exact I. Qed.

(** A map whose registered keys are all drained passes the registry loop
    unchanged. *)
Lemma registry_pass_drained reg options opts :
  Forall (fun o => get opts (long o) = "" /\ get opts (short o) = "") reg ->
  registry_pass reg (options, opts) = (options, opts) /\ emitted reg opts = [].
Proof.
  unfold registry_pass. induction 1 as [|o reg [Hl Hs] _ IH]; [now split|].
  cbn [fold_left registry_step emitted]. unfold lookup_option.
  rewrite Hl, Hs. exact IH.
Qed.

Lemma after_registry_drained opts :
  Forall (fun o => get (after_registry opts) (long o) = ""
                   /\ get (after_registry opts) (short o) = "") allOptions.
Proof. apply Forall_forall. intros o Ho. now apply registry_drains. Qed.

End precedence.

(** X7. A non-empty value under the long name of a descriptor is the value
    [Generate] emits for that descriptor, whatever is stored under its short
    code: the registry loop emits it once, under the short code, and removes
    both the long name and the short code from the map. *)
Theorem long_name_precedence (opts : gmap string string) (o : OptionDescriptor) (v : string) :
  o ∈ allOptions -> get opts (long o) = v -> v <> "" ->
  (o, v) ∈ emitted allOptions opts
  /\ (forall v', (o, v') ∈ emitted allOptions opts -> v' = v)
  /\ after_registry opts !! long o = None
  /\ after_registry opts !! short o = None.
Proof.
  intros Ho Hget Hv.
  destruct (first_naming_allOptions o Ho) as [Hfirst _].
  assert (Hem : (o, v) ∈ emitted allOptions opts) by now apply emitted_long.
  split; [exact Hem|]. split.
  - intros v' Hem'. symmetry.
    exact (emitted_functional allOptions opts o v v' NoDup_allOptions Hem Hem').
  - split; rewrite after_registry_lookup; apply decide_True, elem_of_removed_keys;
      exists o, v; auto.
Qed.

Lemma long_name_precedence_witness :
  let opts : gmap string string := {[ "width" := "100"; "w" := "7" ]} in
  mkOpt "width" "w" ∈ allOptions /\ get opts "width" = "100" /\ "100" <> ""
  /\ (mkOpt "width" "w", "100") ∈ emitted allOptions opts.
Proof.
  assert (H1 : mkOpt "width" "w" ∈ allOptions).
  { apply (bool_decide_unpack _). vm_compute. exact I. }
  assert (H2 : get {[ "width" := "100"; "w" := "7" ]} (long (mkOpt "width" "w")) = "100")
    by reflexivity.
  assert (H3 : "100" <> "") by discriminate.
  split; [exact H1|]. split; [exact H2|]. split; [exact H3|].
  exact (proj1 (long_name_precedence _ _ _ H1 H2 H3)).
Defined.

Example short_code_dropped_beside_long_name :
  optionsPath {[ "width" := "100"; "w" := "7" ]} = "/w:100/"
  /\ after_registry {[ "width" := "100"; "w" := "7" ]} = ∅.
Proof. vm_compute. auto. Qed.

(** X8. With nothing under the long name, a non-empty value under the short
    code is the value emitted for the descriptor, provided the descriptor is
    the first of the registry with that short code; this holds for every
    descriptor but [return_attachment], whose short code [ra] comes first
    with [resizing_algorithm]. *)
Theorem short_code_fallback (opts : gmap string string) (o : OptionDescriptor) (v : string) :
  first_naming (short o) allOptions = Some o ->
  get opts (long o) = "" -> get opts (short o) = v -> v <> "" ->
  (o, v) ∈ emitted allOptions opts
  /\ (forall v', (o, v') ∈ emitted allOptions opts -> v' = v)
  /\ after_registry opts !! long o = None
  /\ after_registry opts !! short o = None
  /\ filter (fun o' => first_naming (short o') allOptions <> Some o') allOptions
     = [mkOpt "return_attachment" "ra"].
Proof.
  intros Hfirst Hlong Hget Hv.
  assert (Hem : (o, v) ∈ emitted allOptions opts) by now apply emitted_short.
  split; [exact Hem|]. split; [|split; [|split]].
  - intros v' Hem'. symmetry.
    exact (emitted_functional allOptions opts o v v' NoDup_allOptions Hem Hem').
  - rewrite after_registry_lookup. apply decide_True, elem_of_removed_keys.
    exists o, v. auto.
  - rewrite after_registry_lookup. apply decide_True, elem_of_removed_keys.
    exists o, v. auto.
  - vm_compute. reflexivity.
Qed.

Lemma short_code_fallback_witness :
  let opts : gmap string string := {[ "q" := "80"; "quality" := "" ]} in
  first_naming "q" allOptions = Some (mkOpt "quality" "q")
  /\ get opts "quality" = "" /\ get opts "q" = "80" /\ "80" <> ""
  /\ (mkOpt "quality" "q", "80") ∈ emitted allOptions opts.
Proof.
  assert (H1 : first_naming (short (mkOpt "quality" "q")) allOptions
               = Some (mkOpt "quality" "q")) by reflexivity.
  assert (H2 : get {[ "q" := "80"; "quality" := "" ]} (long (mkOpt "quality" "q")) = "")
    by reflexivity.
  assert (H3 : get {[ "q" := "80"; "quality" := "" ]} (short (mkOpt "quality" "q")) = "80")
    by reflexivity.
  assert (H4 : "80" <> "") by discriminate.
  split; [exact H1|]. split; [exact H2|]. split; [exact H3|]. split; [exact H4|].
  exact (proj1 (short_code_fallback _ _ _ H1 H2 H3 H4)).
Defined.

Example ra_beside_return_attachment :
  optionsPath {[ "ra" := "lanczos3"; "return_attachment" := "1" ]} = "/ra:lanczos3/ra:1/"
  /\ optionsPath {[ "ra" := "1"; "width" := "5" ]} = "/ra:1/w:5/"
  /\ optionsPath {[ "return_attachment" := "1"; "width" := "5" ]} = "/w:5/ra:1/".
Proof. vm_compute. auto. Qed.

(** ** The map after [Generate] *)

(** X6. After the registry loop every key that is a long name or a short
    code of the registry is absent or bound to the empty string. So the
    leftover loop, which reads [opts[key]] after it has replaced the key by
    its short code, reads the value of the key it replaced: both are
    empty whenever the replacement takes place. *)
Theorem leftover_alias_read (opts : gmap string string) (k : string) :
  let optionMap := processOptionMap allOptions in
  let opts' := after_registry opts in
  Forall (fun o => get opts' (long o) = "" /\ get opts' (short o) = "") allOptions
  /\ get opts' (resolve optionMap k) = get opts' k
  /\ (resolve optionMap k <> k -> get opts' k = "").
Proof.
  intros optionMap opts'.
  assert (Hlong : resolve optionMap k <> k -> get opts' k = "").
  { unfold resolve. destruct (is_empty (get optionMap k)) eqn:E; cbn [negb]; [congruence|].
    intros _. apply is_empty_false in E. unfold get in E at 1. subst optionMap.
    destruct (processOptionMap allOptions !! k) as [s|] eqn:Hs; [|now contradict E].
    apply processOptionMap_Some in Hs as (o & Ho & <- & _).
    subst opts'. apply registry_drains. exact Ho. }
  split; [apply after_registry_drained|]. split; [|exact Hlong].
  destruct (decide (resolve optionMap k = k)) as [->|Hne]; [reflexivity|].
  rewrite (Hlong Hne). subst opts' optionMap.
  apply get_resolve_after_registry. exact (Hlong Hne).
Qed.

(** X5. [Generate] consumes the registered options. On the receiver it
    returns, the registry loop emits nothing and removes nothing, so that a
    second [Generate] leaves the map as it is and gives the options path of
    the first one without its registry segments: the leftover segments
    alone. *)
Theorem Generate_twice (i : ImgproxyURLData) (uri uri' : string) :
  let i' := snd (Generate i uri) in
  let leftovers :=
    leftover_segments (processOptionMap allOptions) (Options i')
      (sort_Strings (range_keys (Options i'))) in
  emitted allOptions (Options i') = []
  /\ snd (Generate i' uri') = i'
  /\ optionsPath (Options i)
     = "/" +:+ concat_segments (registry_segments (emitted allOptions (Options i)))
           +:+ concat_segments leftovers
  /\ optionsPath (Options i') = "/" +:+ concat_segments leftovers.
Proof.
  intros i' leftovers.
  assert (Hi' : i' = {| imgproxy := imgproxy i; Options := after_registry (Options i) |})
    by apply GenerateWith_snd.
  destruct (registry_pass_drained allOptions "/" (after_registry (Options i))
              (after_registry_drained (Options i))) as [Hpass Hem].
  assert (Hafter : after_registry (after_registry (Options i)) = after_registry (Options i)).
  { unfold after_registry at 1. now rewrite Hpass. }
  subst leftovers. rewrite Hi'. cbn [Options imgproxy].
  split; [exact Hem|]. split; [|split].
  - unfold Generate. rewrite GenerateWith_snd. cbn [Options imgproxy]. now rewrite Hafter.
  - unfold optionsPath. rewrite canonicalize_spec. cbn [fst].
    now rewrite concat_segments_app.
  - unfold optionsPath. rewrite canonicalize_spec. cbn [fst].
    now rewrite Hem, Hafter.
Qed.

Example Generate_twice_example :
  let i := Width (SetOption (mkURLData (scenario_imgproxy false 32) ∅) "customtag" "abc") 10 in
  fst (Generate i "x") = Ok "https://img.example.com/insecure/w:10/customtag:abc/plain/x"
  /\ fst (Generate (snd (Generate i "x")) "x")
     = Ok "https://img.example.com/insecure/customtag:abc/plain/x".
Proof. vm_compute. auto. Qed.

(** ** [processOptionMap] and [SetOption] *)

(** X9. [processOptionMap] maps each long name of its argument to a short
    code, the one of the last descriptor with that long name, and has no
    other key. The long names of the registry are pairwise distinct: its
    map has 71 entries and sends the long name of every descriptor to the
    short code of that descriptor. *)
Theorem processOptionMap_spec (opts : list OptionDescriptor) (k : string) :
  processOptionMap opts !! k = short <$> last (filter (fun o => long o = k) opts)
  /\ (is_Some (processOptionMap opts !! k) <-> exists o, o ∈ opts /\ long o = k)
  /\ Forall (fun o => processOptionMap allOptions !! long o = Some (short o)) allOptions
  /\ NoDup (map long allOptions)
  /\ size (processOptionMap allOptions) = 71%nat.
Proof.
  assert (H1 : processOptionMap opts !! k
               = short <$> last (filter (fun o => long o = k) opts)).
  { unfold processOptionMap. rewrite processOptionMap_lookup.
    destruct (last _); [reflexivity|apply lookup_empty]. }
  split; [exact H1|]. split; [|split; [|split]].
  - rewrite H1. split.
    + intros [s Hs]. destruct (last _) as [o|] eqn:E; [|discriminate Hs].
      apply last_Some_elem_of, list_elem_of_filter in E as [Hk Hin]. eauto.
    + intros (o & Hin & Hk).
      assert (Hf : o ∈ filter (fun o => long o = k) opts)
        by (apply list_elem_of_filter; auto).
      destruct (filter (fun o => long o = k) opts) as [|x l] eqn:E using rev_ind.
      * now apply elem_of_nil in Hf.
      * rewrite last_snoc. now eexists.
  - apply (bool_decide_unpack _). vm_compute. exact I.
  - apply (bool_decide_unpack _). vm_compute. exact I.
  - vm_compute. reflexivity.
Qed.


(** ** Decimal numerals and joined strings *)

Section numerals.
Import strconv.

Lemma append_nonempty_l (a b : string) : a <> "" -> a +:+ b <> "".
Proof. destruct a; [congruence|]. rewrite append_cons. discriminate. Qed.

Lemma append_nonempty_r (a b : string) : b <> "" -> a +:+ b <> "".
Proof.
  intros Hb Heq. apply (f_equal String.length) in Heq.
  rewrite length_append in Heq. destruct b; [congruence|]. cbn in Heq. lia.
Qed.

Lemma string_of_uint_nonempty (d : Decimal.uint) : NilZero.string_of_uint d <> "".
Proof. destruct d; discriminate. Qed.

Lemma Itoa_nonempty (n : Z) : Itoa n <> "".
Proof.
  unfold Itoa. destruct (Z.to_int n) as [d|d]; cbn [NilZero.string_of_int].
  - apply string_of_uint_nonempty.
  - discriminate.
Qed.

Lemma to_int_proper (n : Z) :
  Z.to_int n <> Decimal.Pos Decimal.Nil /\ Z.to_int n <> Decimal.Neg Decimal.Nil.
Proof.
  destruct n as [|p|p]; cbn [Z.to_int]; split; try discriminate;
    intros [= H]; now apply (Unsigned.to_uint_nonnil p).
Qed.

(** Reading the numeral [Itoa] writes gives the integer back. *)
Lemma parse_decimal_Itoa (n : Z) : parse_decimal (Itoa n) = Some n.
Proof.
  unfold parse_decimal, Itoa. destruct (to_int_proper n) as [Hp Hn].
  rewrite NilZero.isi by assumption. cbn [option_map]. now rewrite DecimalZ.of_to.
Qed.

Lemma Itoa_inj (n m : Z) : Itoa n = Itoa m -> n = m.
Proof.
  intros H. apply (f_equal parse_decimal) in H.
  rewrite !parse_decimal_Itoa in H. congruence.
Qed.

Lemma string_of_uint_chars (d : Decimal.uint) :
  Forall (fun c => is_decimal_char c = true)
    (list_ascii_of_string (NilEmpty.string_of_uint d)).
Proof. induction d; cbn [NilEmpty.string_of_uint list_ascii_of_string]; now constructor. Qed.

(** A numeral consists of digits and a sign: it has no [:] and no [/]. *)
Lemma Itoa_chars (n : Z) :
  Forall (fun c => is_decimal_char c = true) (list_ascii_of_string (Itoa n)).
Proof.
  assert (Hu : forall d, Forall (fun c => is_decimal_char c = true)
                           (list_ascii_of_string (NilZero.string_of_uint d))).
  { intros d. destruct d; try apply string_of_uint_chars. now repeat constructor. }
  unfold Itoa. destruct (Z.to_int n) as [d|d]; cbn [NilZero.string_of_int list_ascii_of_string].
  - apply Hu.
  - constructor; [reflexivity|apply Hu].
Qed.

Lemma Join_empty (elems : list string) :
  strings.Join elems ":" = "" <-> elems = [] \/ elems = [""].
Proof.
  split.
  - destruct elems as [|e [|e' rest]]; cbn [strings.Join].
    + now left.
    + intros ->. now right.
    + intros H. exfalso. revert H. apply append_nonempty_r, append_nonempty_l. discriminate.
  - intros [-> | ->]; reflexivity.
Qed.

End numerals.

Example Itoa_values :
  strconv.Itoa 0 = "0" /\ strconv.Itoa 300 = "300" /\ strconv.Itoa (-42) = "-42"
  /\ strconv.Itoa 9223372036854775807 = "9223372036854775807"
  /\ strings.Join ["a"; "b"; "c"] ":" = "a:b:c".
Proof. vm_compute. auto 6. Qed.

(** ** The typed builders *)

Section builders.
Import strconv.
Implicit Types (i : ImgproxyURLData) (o : OptionDescriptor) (s v : string).

Lemma SetOption_get i k v : get (Options (SetOption i k v)) k = v.
Proof. unfold SetOption, get. cbn [Options]. now rewrite lookup_insert_eq. Qed.

Lemma SetOption_get_ne i k k' v : k <> k' -> get (Options (SetOption i k v)) k' = get (Options i) k'.
Proof. intros Hne. unfold SetOption, get. cbn [Options]. now rewrite lookup_insert_ne. Qed.

(** A builder that sets a long name to a non-empty value has its segment
    emitted by the registry loop. *)
Lemma SetOption_long_emitted i o v :
  first_naming (long o) allOptions = Some o -> v <> "" ->
  (o, v) ∈ emitted allOptions (Options (SetOption i (long o) v)).
Proof.
  intros Hfirst Hv. apply emitted_long; [exact Hfirst|apply SetOption_get|exact Hv].
Qed.

Lemma long_names_private_allOptions : long_names_private allOptions = true.
Proof. vm_compute. reflexivity. Qed.

Lemma names_long_unique o o' :
  o ∈ allOptions -> o' ∈ allOptions -> names (long o) o' = true -> o' = o.
Proof.
  intros Ho Ho' Hn. pose proof long_names_private_allOptions as H.
  unfold long_names_private in H. rewrite forallb_forall in H.
  apply list_elem_of_In in Ho. specialize (H o Ho). apply bool_decide_eq_true in H.
  assert (Hin : o' ∈ filter (fun o' => names (long o) o' = true) allOptions)
    by (apply list_elem_of_filter; split; assumption).
  rewrite H in Hin. apply list_elem_of_singleton in Hin. exact Hin.
Qed.

Lemma registry_shorts : Forall (fun o => processOptionMap allOptions !! long o = Some (short o)
                                         /\ short o <> "") allOptions.
Proof. apply (bool_decide_unpack _). vm_compute. exact I. Qed.

Lemma resolve_long o : o ∈ allOptions -> resolve (processOptionMap allOptions) (long o) = short o.
Proof.
  intros Ho. pose proof registry_shorts as H. rewrite Forall_forall in H.
  destruct (H o Ho) as [Hl Hs]. unfold resolve, get. rewrite Hl. cbn [default].
  apply is_empty_false in Hs. unfold id. rewrite Hs. reflexivity.
Qed.

(** A long name bound to the empty string, with nothing under the short
    code, reaches the leftover loop and is emitted there as [short:]. *)
Lemma empty_long_survives (opts : gmap string string) o :
  o ∈ allOptions -> opts !! long o = Some "" -> get opts (short o) = "" ->
  after_registry opts !! long o = Some ""
  /\ long o ∈ sort_Strings (range_keys (after_registry opts))
  /\ leftover_segments (processOptionMap allOptions) (after_registry opts) [long o]
     = [segment (short o) ""].
Proof.
  intros Ho Hl Hs.
  assert (Hk : after_registry opts !! long o = Some "").
  { rewrite after_registry_lookup. rewrite decide_False; [exact Hl|].
    intros (o' & v & Hin & Hname)%elem_of_removed_keys.
    pose proof (emitted_value _ _ _ _ Hin) as (Ho' & Hv & Hget).
    assert (Heq : o' = o).
    { apply names_long_unique; [exact Ho|exact Ho'|].
      apply bool_decide_eq_true. destruct Hname; [left|right]; congruence. }
    subst o'. apply Hv. unfold get in Hget at 1. rewrite Hl in Hget. cbn in Hget.
    destruct Hget; congruence. }
  split; [exact Hk|]. split.
  - apply elem_of_sorted_keys. now exists "".
  - cbn [leftover_segments map]. rewrite resolve_long by exact Ho.
    destruct (registry_drains allOptions "/" opts o Ho) as [_ Hd].
    fold (after_registry opts) in Hd. now rewrite Hd.
Qed.

End builders.

(** X11. Setting the long name of a descriptor. A non-empty value is emitted
    by the registry loop under the short code and the key is consumed. The
    empty value does not unset the option: with nothing under the short
    code, the key stays in the map and the leftover loop emits [short:]
    with the empty value. *)
Theorem SetOption_registered (i : ImgproxyURLData) (o : OptionDescriptor) (s : string) :
  o ∈ allOptions ->
  let opts := Options (SetOption i (long o) s) in
  (s <> "" ->
   (o, s) ∈ emitted allOptions opts /\ after_registry opts !! long o = None)
  /\ (s = "" -> get opts (short o) = "" ->
      Forall (fun ov => fst ov <> o) (emitted allOptions opts)
      /\ after_registry opts !! long o = Some ""
      /\ long o ∈ sort_Strings (range_keys (after_registry opts))
      /\ leftover_segments (processOptionMap allOptions) (after_registry opts) [long o]
         = [segment (short o) ""]).
Proof.
  intros Ho opts. destruct (first_naming_allOptions o Ho) as [Hfirst _]. split.
  - intros Hs.
    assert (Hem : (o, s) ∈ emitted allOptions opts) by now apply SetOption_long_emitted.
    split; [exact Hem|].
    rewrite after_registry_lookup. apply decide_True, elem_of_removed_keys.
    exists o, s. auto.
  - intros -> Hshort.
    assert (Hl : opts !! long o = Some "").
    { subst opts. unfold SetOption. cbn [Options]. apply lookup_insert_eq. }
    split; [|now apply empty_long_survives].
    apply Forall_forall. intros [o' v] Hin Heq. cbn [fst] in Heq. subst o'.
    apply emitted_value in Hin as (_ & Hv & Hget).
    assert (Hgl : get opts (long o) = "") by (unfold get; now rewrite Hl).
    destruct Hget as [Hget|Hget]; rewrite Hget in Hv; [now apply Hv|now apply Hv].
Qed.

Lemma SetOption_registered_witness :
  mkOpt "format" "f" ∈ allOptions
  /\ (mkOpt "format" "f", "png")
     ∈ emitted allOptions (Options (Format (mkURLData (scenario_imgproxy true 32) ∅) "png")).
Proof.
  assert (H1 : mkOpt "format" "f" ∈ allOptions).
  { apply (bool_decide_unpack _). vm_compute. exact I. }
  split; [exact H1|].
  refine (proj1 (proj1 (SetOption_registered (mkURLData (scenario_imgproxy true 32) ∅)
                          (mkOpt "format" "f") "png" H1) _)).
  discriminate.
Defined.

Example empty_argument_example :
  optionsPath (Options (Width (Format (mkURLData (scenario_imgproxy true 32) ∅) "") 10))
  = "/w:10/f:/"
  /\ optionsPath (Options (Preset (mkURLData (scenario_imgproxy true 32) ∅) [])) = "/pr:/".
Proof. vm_compute. auto. Qed.

(** X12. [Width], [Height], [Enlarge], [Quality], [Blur] and [Sharpen] set
    the decimal numeral of their argument, and [Generate] emits it under
    the short code of the option whatever else the option set holds. The
    numeral is not empty, reads back as the argument, and has neither [:]
    nor [/]. *)
Theorem numeric_builders_emitted (i : ImgproxyURLData) (n : Z) :
  let v := strconv.Itoa n in
  (mkOpt "width" "w", v) ∈ emitted allOptions (Options (Width i n))
  /\ (mkOpt "height" "h", v) ∈ emitted allOptions (Options (Height i n))
  /\ (mkOpt "enlarge" "el", v) ∈ emitted allOptions (Options (Enlarge i n))
  /\ (mkOpt "quality" "q", v) ∈ emitted allOptions (Options (Quality i n))
  /\ (mkOpt "blur" "bl", v) ∈ emitted allOptions (Options (Blur i n))
  /\ (mkOpt "sharpen" "sh", v) ∈ emitted allOptions (Options (Sharpen i n))
  /\ v <> ""
  /\ strconv.parse_decimal v = Some n
  /\ Forall (fun c => c <> ":"%char /\ c <> "/"%char) (list_ascii_of_string v).
Proof.
  intros v. pose proof (Itoa_nonempty n) as Hv. fold v in Hv.
  repeat (split; [apply (SetOption_long_emitted i (mkOpt _ _)); [reflexivity|exact Hv]|]).
  split; [exact Hv|]. split; [apply parse_decimal_Itoa|].
  eapply Forall_impl; [apply Itoa_chars|].
  intros c Hc. split; intros ->; discriminate Hc.
Qed.

Example Width_negative_and_zero :
  optionsPath (Options (Height (Width (mkURLData (scenario_imgproxy true 32) ∅) 0) (-5)))
  = "/w:0/h:-5/".
Proof. vm_compute. reflexivity. Qed.

(** X13. [DPR] sets the option for a positive argument only. For zero and
    for negative arguments it returns the receiver as it is: it neither
    sets the option nor clears a value set before. *)
Theorem DPR_guard (i : ImgproxyURLData) (dpr : Z) :
  if 0 <? dpr
  then (mkOpt "dpr" "dpr", strconv.Itoa dpr) ∈ emitted allOptions (Options (DPR i dpr))
       /\ Options (DPR i dpr) !! "dpr" = Some (strconv.Itoa dpr)
  else DPR i dpr = i
       /\ emitted allOptions (Options (DPR i dpr)) = emitted allOptions (Options i).
Proof.
  unfold DPR. destruct (0 <? dpr).
  - split.
    + apply (SetOption_long_emitted i (mkOpt "dpr" "dpr")); [reflexivity|apply Itoa_nonempty].
    + unfold SetOption. cbn [Options]. apply lookup_insert_eq.
  - split; reflexivity.
Qed.

Example DPR_zero_keeps_previous :
  optionsPath (Options (DPR (DPR (mkURLData (scenario_imgproxy true 32) ∅) 2) 0)) = "/dpr:2/".
Proof. vm_compute. reflexivity. Qed.

(** X14. [OffsetGravity] and [FocusPoint] set the long name [gravity],
    [GravityEnum] sets the short code [g]. When one of the former and a
    [GravityEnum] are both set, in either order, the two calls commute and
    [Generate] emits the [g:] segment once, with the value of the
    [OffsetGravity] or [FocusPoint]: the enum value is removed with it and
    is not emitted, even when it was set last. *)
Theorem Gravity_long_name_wins (i : ImgproxyURLData) (og : OffsetGravity) (fp : FocusPoint)
    (g : string) :
  Forall (fun s =>
    let i1 := Gravity (Gravity i s) (OfGravityEnum g) in
    let i2 := Gravity (Gravity i (OfGravityEnum g)) s in
    i1 = i2
    /\ GetStringOption s <> ""
    /\ (mkOpt "gravity" "g", GetStringOption s) ∈ emitted allOptions (Options i1)
    /\ (forall v, (mkOpt "gravity" "g", v) ∈ emitted allOptions (Options i1) ->
                  v = GetStringOption s)
    /\ after_registry (Options i1) !! "g" = None
    /\ after_registry (Options i1) !! "gravity" = None)
    [OfOffsetGravity og; OfFocusPoint fp].
Proof.
  assert (Hgen : forall s, GetStringOption s <> "" ->
            SetGravityOption s = (fun i => SetOption i "gravity" (GetStringOption s)) ->
            let i1 := Gravity (Gravity i s) (OfGravityEnum g) in
            let i2 := Gravity (Gravity i (OfGravityEnum g)) s in
            i1 = i2
            /\ GetStringOption s <> ""
            /\ (mkOpt "gravity" "g", GetStringOption s) ∈ emitted allOptions (Options i1)
            /\ (forall v, (mkOpt "gravity" "g", v) ∈ emitted allOptions (Options i1) ->
                          v = GetStringOption s)
            /\ after_registry (Options i1) !! "g" = None
            /\ after_registry (Options i1) !! "gravity" = None).
  { intros s Hs Hset i1 i2.
    assert (Hget : get (Options i1) "gravity" = GetStringOption s).
    { subst i1. unfold Gravity. rewrite Hset. cbn [SetGravityOption].
      rewrite (SetOption_get_ne _ "g" "gravity") by (intros H; discriminate H).
      apply SetOption_get. }
    assert (Hem : (mkOpt "gravity" "g", GetStringOption s) ∈ emitted allOptions (Options i1)).
    { apply emitted_long; [reflexivity|exact Hget|exact Hs]. }
    split; [|split; [exact Hs|split; [exact Hem|split; [|split]]]].
    - subst i1 i2. unfold Gravity. rewrite Hset. cbn [SetGravityOption].
      unfold SetOption. cbn [Options imgproxy]. f_equal.
      apply insert_insert_ne. intros H; discriminate H.
    - intros v Hv. symmetry.
      exact (emitted_functional allOptions _ _ _ _ NoDup_allOptions Hem Hv).
    - rewrite after_registry_lookup. apply decide_True, elem_of_removed_keys.
      exists (mkOpt "gravity" "g"), (GetStringOption s). auto.
    - rewrite after_registry_lookup. apply decide_True, elem_of_removed_keys.
      exists (mkOpt "gravity" "g"), (GetStringOption s). auto. }
  repeat constructor; apply Hgen; try reflexivity;
    cbn [GetStringOption]; intros H; apply (f_equal String.length) in H;
    rewrite !length_append in H; cbn [String.length] in H; lia.
Qed.

Example Gravity_enum_after_focus_point :
  optionsPath (Options (Gravity (Gravity (mkURLData (scenario_imgproxy true 32) ∅)
                                   (OfFocusPoint (mkFocusPoint 1 2)))
                          (OfGravityEnum GravityEnumSmart)))
  = "/g:fp:1:2/"
  /\ optionsPath (Options (Gravity (mkURLData (scenario_imgproxy true 32) ∅)
                             (OfGravityEnum GravityEnumSmart)))
     = "/g:sm/".
Proof. vm_compute. auto. Qed.

Ltac nonempty_by_length :=
  let H := fresh "H" in
  intros H; apply (f_equal String.length) in H;
  rewrite !length_append in H; cbn [String.length] in H; lia.

(** X15. [Preset] joins its arguments with [:]. The joined value is empty
    exactly for no preset at all and for the single empty preset. In every
    other case [Generate] emits [pr:] with the joined value in the registry
    loop. In these two cases the option is not left out: with nothing
    under [pr], the key [preset] reaches the leftover loop and is emitted
    as [pr:] with the empty value. *)
Theorem Preset_joined (i : ImgproxyURLData) (presets : list string) :
  let v := strings.Join presets ":" in
  let opts := Options (Preset i presets) in
  opts !! "preset" = Some v
  /\ (v = "" <-> presets = [] \/ presets = [""])
  /\ (v <> "" -> (mkOpt "preset" "pr", v) ∈ emitted allOptions opts)
  /\ (v = "" -> get opts "pr" = "" ->
      "preset" ∈ sort_Strings (range_keys (after_registry opts))
      /\ leftover_segments (processOptionMap allOptions) (after_registry opts) ["preset"]
         = [segment "pr" ""])
  /\ strings.Join ["a"; "b"] ":" = "a:b".
Proof.
  intros v opts.
  assert (Hl : opts !! "preset" = Some v).
  { subst opts. unfold Preset, SetOption. cbn [Options]. apply lookup_insert_eq. }
  split; [exact Hl|]. split; [apply Join_empty|]. split; [|split; [|reflexivity]].
  - intros Hv. apply (SetOption_long_emitted i (mkOpt "preset" "pr")); [reflexivity|exact Hv].
  - intros Hv Hpr. rewrite Hv in Hl.
    assert (Ho : mkOpt "preset" "pr" ∈ allOptions).
    { apply (bool_decide_unpack _). vm_compute. exact I. }
    destruct (empty_long_survives opts (mkOpt "preset" "pr") Ho Hl Hpr) as (_ & H1 & H2).
    split; [exact H1|exact H2].
Qed.

(** X16. The builders with a composed value: [Resize], [Size], [Background]
    with an [RGBColor], [Watermark] and [Crop]. The value is the fields in
    decimal, joined by [:], with [1] and [0] for the booleans; [Watermark]
    has the two offsets only for a non-nil offset and [Crop] the gravity
    only for a non-nil gravity. The value is never empty, so [Generate]
    emits it in the registry loop. [Crop] stores the gravity in its own
    value: the entries [gravity] and [g] of the map are as before. *)
Theorem composed_builders_emitted (i : ImgproxyURLData) (resizingType position : string)
    (width height opacity scale : Z) (enlarge extend : bool) (rgb : RGBColor)
    (offset : option WatermarkOffset) (gravity : option GravitySetter) :
  let I := strconv.Itoa in
  let b := boolAsNumberString in
  (mkOpt "resize" "rs",
   resizingType +:+ ":" +:+ I width +:+ ":" +:+ I height +:+ ":" +:+ b enlarge +:+ ":" +:+ b extend)
    ∈ emitted allOptions (Options (Resize i resizingType width height enlarge extend))
  /\ (mkOpt "size" "s", I width +:+ ":" +:+ I height +:+ ":" +:+ b enlarge)
       ∈ emitted allOptions (Options (Size i width height enlarge))
  /\ (mkOpt "background" "bg", I (R rgb) +:+ ":" +:+ I (G rgb) +:+ ":" +:+ I (B rgb))
       ∈ emitted allOptions (Options (Background i (OfRGBColor rgb)))
  /\ (mkOpt "watermark" "wm",
      I opacity +:+ ":" +:+ position
      +:+ match offset with
          | Some off => ":" +:+ I (OffsetX off) +:+ ":" +:+ I (OffsetY off)
          | None => ""
          end
      +:+ ":" +:+ I scale)
       ∈ emitted allOptions (Options (Watermark i opacity position offset scale))
  /\ (mkOpt "crop" "c",
      match gravity with
      | Some g => (I width +:+ ":" +:+ I height) +:+ ":" +:+ GetStringOption g
      | None => I width +:+ ":" +:+ I height
      end)
       ∈ emitted allOptions (Options (Crop i width height gravity))
  /\ Options (Crop i width height gravity) !! "gravity" = Options i !! "gravity"
  /\ Options (Crop i width height gravity) !! "g" = Options i !! "g".
Proof.
  intros I b. subst I b.
  split; [|split; [|split; [|split; [|split; [|split]]]]].
  - apply (SetOption_long_emitted i (mkOpt "resize" "rs")); [reflexivity|nonempty_by_length].
  - apply (SetOption_long_emitted i (mkOpt "size" "s")); [reflexivity|nonempty_by_length].
  - apply (SetOption_long_emitted i (mkOpt "background" "bg")); [reflexivity|nonempty_by_length].
  - apply (SetOption_long_emitted i (mkOpt "watermark" "wm")); [reflexivity|nonempty_by_length].
  - unfold Crop. destruct gravity as [g|].
    + apply (SetOption_long_emitted i (mkOpt "crop" "c")); [reflexivity|nonempty_by_length].
    + apply (SetOption_long_emitted i (mkOpt "crop" "c")); [reflexivity|nonempty_by_length].
  - unfold Crop, SetOption. cbn [Options]. apply lookup_insert_ne. intros H; discriminate H.
  - unfold Crop, SetOption. cbn [Options]. apply lookup_insert_ne. intros H; discriminate H.
Qed.

Example composed_builders_values :
  let i0 := mkURLData (scenario_imgproxy true 32) ∅ in
  optionsPath (Options (Resize i0 ResizingTypeFill 300 200 true false)) = "/rs:fill:300:200:1:0/"
  /\ optionsPath (Options (Size i0 300 200 false)) = "/s:300:200:0/"
  /\ optionsPath (Options (Background i0 (OfRGBColor (mkRGBColor 255 0 16)))) = "/bg:255:0:16/"
  /\ optionsPath (Options (Watermark i0 1 WatermarkPositionReplicate None 2)) = "/wm:1:re:2/"
  /\ optionsPath (Options (Watermark i0 1 WatermarkPositionCenter
                             (Some (mkWatermarkOffset 10 (-5))) 2)) = "/wm:1:ce:10:-5:2/"
  /\ optionsPath (Options (Crop i0 10 20 None)) = "/c:10:20/"
  /\ optionsPath (Options (Crop i0 10 20 (Some (OfGravityEnum GravityEnumSmart))))
     = "/c:10:20:sm/"
  /\ optionsPath (Options (Crop i0 10 20
                             (Some (OfOffsetGravity (mkOffsetGravity GravityEnumNorth 1 2)))))
     = "/c:10:20:no:1:2/".
Proof. vm_compute. auto 10. Qed.

(** X17. [ResizingType], [CacheBuster], [Format] and [Background] with a
    [HexColor] set their argument as it is, and [Generate] emits a
    non-empty argument in the registry loop under [rt], [cb], [f] and
    [bg]. *)
Theorem string_builders_emitted (i : ImgproxyURLData) (s : string) :
  s <> "" ->
  (mkOpt "resizing_type" "rt", s) ∈ emitted allOptions (Options (ResizingType i s))
  /\ (mkOpt "cachebuster" "cb", s) ∈ emitted allOptions (Options (CacheBuster i s))
  /\ (mkOpt "format" "f", s) ∈ emitted allOptions (Options (Format i s))
  /\ (mkOpt "background" "bg", s) ∈ emitted allOptions (Options (Background i (OfHexColor s))).
Proof.
  intros Hs.
  repeat split; apply (SetOption_long_emitted i (mkOpt _ _)); solve [reflexivity|exact Hs].
Qed.

Lemma string_builders_emitted_witness :
  "webp" <> ""
  /\ (mkOpt "format" "f", "webp")
     ∈ emitted allOptions (Options (Format (mkURLData (scenario_imgproxy true 32) ∅) "webp")).
Proof.
  assert (H : "webp" <> "") by discriminate.
  split; [exact H|].
  exact (proj1 (proj2 (proj2 (string_builders_emitted
                                (mkURLData (scenario_imgproxy true 32) ∅) "webp" H)))).
Defined.
